(** * Checkpoint adaptation utilities of the ViT loader (libml/utils_vit.py)

    A shallow embedding of [_flatten_dict], [inspect_params], [recover_tree]
    and [load_pretrained], followed by the properties proved about them.

    Modelling conventions.
    - A Python [dict] is an association list with pairwise distinct keys, kept
      in insertion order: [d[k] = v] replaces the value in place when [k] is
      already bound and appends a new binding otherwise.
    - A parameter tree is a nested dict whose leaves are tensors.  No two
      sub-dicts of a tree built by [recover_tree] are the same object, so
      in-place updates are modelled by rebuilding the value.
    - A tensor is its shape together with its row-major contents.  The
      elements are never inspected by this module (only moved around, or
      handed to [scipy.ndimage.zoom]), so their type is a parameter.
    - [int(np.sqrt(n))] is the integer square root of [n] below 2^52, where
      the float64 root is exact enough; from 2^52 on the rounded root can
      exceed it, and by how much is a parameter ([sqrt_excess]).
    - Exceptions are values of type [error]; a computation that may raise
      returns a [result]. *)

From Stdlib Require Import List String Ascii Bool Arith ZArith Lia Permutation.
Import ListNotations.

Local Open Scope string_scope.
Local Open Scope list_scope.

(** ** Strings *)

(** The path separator of the flat checkpoint names. *)
Definition slash : ascii := "/"%char.

(** ['/' in k]. *)
Fixpoint contains_sep (k : string) : bool :=
  match k with
  | EmptyString => false
  | String c k' => if Ascii.eqb c slash then true else contains_sep k'
  end.

(** [k.split('/', 1)] for a [k] that contains the separator: the text before
    the first ['/'] and the text after it. *)
Fixpoint split_sep (k : string) : string * string :=
  match k with
  | EmptyString => (EmptyString, EmptyString)
  | String c k' =>
      if Ascii.eqb c slash then (EmptyString, k')
      else let (l, r) := split_sep k' in (String c l, r)
  end.

(** Python truthiness of a string. *)
Definition truthy_str (s : string) : bool :=
  match s with EmptyString => false | _ => true end.

(** ** Python dicts as insertion-ordered association lists *)

Definition dict (V : Type) : Type := list (string * V).

Fixpoint dict_get {V : Type} (d : dict V) (k : string) : option V :=
  match d with
  | [] => None
  | (k', v) :: d' => if String.eqb k' k then Some v else dict_get d' k
  end.

(** [k in d]. *)
Definition dict_mem {V : Type} (d : dict V) (k : string) : bool :=
  match dict_get d k with Some _ => true | None => false end.

(** [d[k] = v]. *)
Fixpoint dict_set {V : Type} (d : dict V) (k : string) (v : V) : dict V :=
  match d with
  | [] => [(k, v)]
  | (k', v') :: d' =>
      if String.eqb k' k then (k', v) :: d' else (k', v') :: dict_set d' k v
  end.

(** [d.pop(k)] for a [k] known to be bound (the popped value is dropped). *)
Fixpoint dict_pop {V : Type} (d : dict V) (k : string) : dict V :=
  match d with
  | [] => []
  | (k', v') :: d' =>
      if String.eqb k' k then d' else (k', v') :: dict_pop d' k
  end.

(** [dict(items)]: later bindings of a key overwrite earlier ones. *)
Definition dict_of_items {V : Type} (items : list (string * V)) : dict V :=
  fold_left (fun d kv => dict_set d (fst kv) (snd kv)) items [].

(** [d.keys()]. *)
Definition keys {V : Type} (d : dict V) : list string := map fst d.

(** Membership in a key set. *)
Definition key_in (k : string) (s : list string) : bool :=
  existsb (String.eqb k) s.

(** [a - b] on key sets.  A Python set has no order of its own; the model
    keeps the order of [a]. *)
Definition keys_diff (a b : list string) : list string :=
  filter (fun k => negb (key_in k b)) a.

(** [s.add(k)]. *)
Definition keys_add (k : string) (s : list string) : list string :=
  if key_in k s then s else s ++ [k].

(** Python truthiness of a container. *)
Definition nonempty {A : Type} (l : list A) : bool :=
  match l with [] => false | _ => true end.

(** ** Results and exceptions *)

Inductive error : Type :=
| ValueError (missing extra restored expected : list string)
    (* raised by inspect_params, with the four key sets of its message *)
| KeyError (k : string)          (* d[k] on a dict without k *)
| IndexError                     (* a tensor subscripted with a string *)
| AttributeError                 (* .shape of a dict *)
| ShapeError                     (* any failure inside numpy / jax / scipy *)
| OutsideModel.
    (* not an exception: the positional embedding does not have the
       documented layout (1, N, C), which is all the model covers *)

Inductive result (A : Type) : Type :=
| Ok (a : A)
| Err (e : error).
Arguments Ok {A} a.
Arguments Err {A} e.

Definition bind {A B : Type} (r : result A) (f : A -> result B) : result B :=
  match r with
  | Ok a => f a
  | Err e => Err e
  end.

Notation "x <- r ;; k" := (bind r (fun x => k))
  (at level 61, r at next level, right associativity).

(** ** Model configuration *)

(** One entry of [model_config['prompt_params']]. *)
Module Cfg.
Record prompt : Type := mkPrompt { length : Z; top_k : Z; prompt_key : bool }.
End Cfg.

(** The options of [model_config] that [load_pretrained] reads.  [None] is an
    option that is absent (or set to [None]): [model_config.get] returns
    [None] for it and [model_config[...]] raises [KeyError]. *)
Record model_config : Type := mkConfig {
  representation_size : option Z;
  use_cls_token : option bool;
  prompt_params : option (dict Cfg.prompt)
}.

(** [token_len], lines 171-178: the counter starts at 0 and is incremented by
    the two guarded statements in turn. *)
Definition token_len (cfg : model_config) : Z :=
  let token_len := 0%Z in
  let token_len :=
    match use_cls_token cfg with
    | Some true => (token_len + 1)%Z
    | _ => token_len
    end in
  match prompt_params cfg with
  | Some prompt_params =>
      if nonempty prompt_params
      then fold_left
             (fun token_len key =>
                match dict_get prompt_params key with
                | Some p => (token_len + Cfg.length p * Cfg.top_k p)%Z
                | None => token_len
                end)
             ["prompt_pool"] token_len
      else token_len
  | None => token_len
  end.

Section Adapter.

(** Tensor elements (float32 in the checkpoints). *)
Variable elem : Type.

(** ** Tensors and parameter trees *)

Record tensor : Type := mkTensor { shape : list nat; data : list elem }.

(** [len(data) == prod(shape)]. *)
Definition tensor_wf (t : tensor) : Prop :=
  List.length (data t) = fold_right Nat.mul 1 (shape t).

#[warnings="-register-all"]
Inductive tree : Type :=
| Leaf (x : tensor)
| Dict (d : list (string * tree)).

(** Python's [==] on parameter trees: two dicts are equal when they have the
    same number of bindings and every binding of the left one is found, with
    an equal value, in the right one; the insertion order is irrelevant. *)
Fixpoint tree_eq (a b : tree) : Prop :=
  match a, b with
  | Leaf x, Leaf y => x = y
  | Dict da, Dict db =>
      List.length da = List.length db /\
      (fix all (l : list (string * tree)) : Prop :=
         match l with
         | [] => True
         | (k, v) :: l' =>
             (exists v', dict_get db k = Some v' /\ tree_eq v v') /\ all l'
         end) da
  | _, _ => False
  end.

(** ** _flatten_dict *)

(** [_flatten_dict(d, parent_key, sep)], by recursion on the tree [Dict d].
    [isinstance(v, collections.Mapping)] holds of the dicts and of nothing
    else in a parameter tree (the alias exists up to Python 3.9). *)
Fixpoint flatten_tree (t : tree) (parent_key sep : string) {struct t}
  : dict tree :=
  match t with
  | Leaf _ => []
  | Dict d =>
      let items :=
        (fix each (l : list (string * tree)) : list (string * tree) :=
           match l with
           | [] => []
           | (k, v) :: l' =>
               let path :=
                 if truthy_str parent_key
                 then (parent_key ++ sep ++ k)%string else k in
               match v with
               | Dict _ => flatten_tree v path sep ++ each l'
               | Leaf _ => (path, v) :: each l'
               end
           end) d in
      let items :=
        if truthy_str parent_key && negb (nonempty d)
        then items ++ [(parent_key, Dict [])]
        else items in
      dict_of_items items
  end.

Definition _flatten_dict (d : dict tree) (parent_key sep : string) : dict tree :=
  flatten_tree (Dict d) parent_key sep.

(** ** inspect_params *)

(** [isinstance(v, dict) and not v]. *)
Definition is_empty_dict (v : tree) : bool :=
  match v with Dict [] => true | _ => false end.

(** One turn of the loop over [missing_keys]; the state is
    [(params, empty_keys)]. *)
Definition recover_empty (expected_flat : dict tree)
    (st : dict tree * list string) (k : string) : dict tree * list string :=
  match dict_get expected_flat k with
  | Some v =>
      if is_empty_dict v
      then (dict_set (fst st) k (Dict []), keys_add k (snd st))
      else st
  | None => st
  end.

Definition inspect_params (params expected : dict tree)
    (fail_if_extra fail_if_missing : bool) : result (dict tree) :=
  let params_flat := _flatten_dict params "" "/" in
  let expected_flat := _flatten_dict expected "" "/" in
  let missing_keys := keys_diff (keys expected_flat) (keys params_flat) in
  let extra_keys := keys_diff (keys params_flat) (keys expected_flat) in
  let st := fold_left (recover_empty expected_flat) missing_keys (params, []) in
  let params := fst st in
  let empty_keys := snd st in
  let missing_keys := keys_diff missing_keys empty_keys in
  if (nonempty missing_keys && fail_if_missing)
     || (nonempty extra_keys && fail_if_extra)
  then Err (ValueError missing_keys extra_keys
              (keys params_flat) (keys expected_flat))
  else Ok params.

(** ** recover_tree *)

(** [sub_trees[k_left].append(item)] on a [defaultdict(list)]. *)
Definition group_append (sub_trees : dict (list (string * tree)))
    (k_left : string) (item : string * tree) : dict (list (string * tree)) :=
  match dict_get sub_trees k_left with
  | Some l => dict_set sub_trees k_left (l ++ [item])
  | None => dict_set sub_trees k_left [item]
  end.

(** One turn of the first loop; the state is [(tree, sub_trees)]. *)
Definition scan_key (st : dict tree * dict (list (string * tree)))
    (kv : string * tree) : dict tree * dict (list (string * tree)) :=
  let (k, v) := kv in
  if contains_sep k
  then let (k_left, k_right) := split_sep k in
       (fst st, group_append (snd st) k_left (k_right, v))
  else (dict_set (fst st) k v, snd st).

(** [recover_tree(keys, values)].  The recursion is on the keys with their
    first segment removed, so it is bounded by the length of the longest key;
    [None] means the bound [fuel] was too small. *)
Fixpoint recover_tree_fuel (fuel : nat) (keys : list string)
    (values : list tree) : option (dict tree) :=
  match fuel with
  | O => None
  | S fuel' =>
      let st := fold_left scan_key (combine keys values) ([], []) in
      fold_left
        (fun acc (g : string * list (string * tree)) =>
           match acc with
           | None => None
           | Some tree =>
               match recover_tree_fuel fuel' (map fst (snd g)) (map snd (snd g)) with
               | None => None
               | Some sub => Some (dict_set tree (fst g) (Dict sub))
               end
           end)
        (snd st) (Some (fst st))
  end.

(** A bound that is always large enough: one more than the longest key. *)
Definition key_bound (keys : list string) : nat :=
  S (fold_right Nat.max 0 (map String.length keys)).

Definition recover_tree (keys : list string) (values : list tree)
  : option (dict tree) :=
  recover_tree_fuel (key_bound keys) keys values.

(** [unflatten(flat)]: [recover_tree] applied to the keys and the values of a
    flat dict, as [load] does with the items of a checkpoint. *)
Definition unflatten (flat : dict tree) : option (dict tree) :=
  recover_tree (map fst flat) (map snd flat).

(** ** Tensor operations used by the resampler

    The positional embedding has the layout (1, N, C) documented in the
    source; with a leading dimension of 1 the row-major contents of a slice
    along the token axis are a segment of the contents. *)

(** [t.size]. *)
Definition size (t : tensor) : nat := fold_right Nat.mul 1 (shape t).

(** [posemb[:, :k]] on a tensor of shape (1, n, c). *)
Definition slice_tokens (k n c : nat) (posemb : tensor) : tensor :=
  mkTensor [1; Nat.min k n; c] (firstn (Nat.min k n * c) (data posemb)).

(** [posemb[0, k:]] on a tensor of shape (1, n, c); [posemb[0]] is the case
    [k = 0]. *)
Definition row0_from (k n c : nat) (posemb : tensor) : tensor :=
  mkTensor [n - k; c] (skipn (k * c) (data posemb)).

(** [jnp.tile(tok, [1, reps, 1])] on a tensor of shape (1, m, c). *)
Definition tile_tokens (reps m c : nat) (tok : tensor) : tensor :=
  mkTensor [1; m * reps; c] (List.concat (repeat (data tok) reps)).

(** [t.reshape(known..., -1)]: numpy refuses to infer the last dimension when
    the known ones multiply to 0 or do not divide the size. *)
Definition reshape_infer (t : tensor) (known : list nat) : result tensor :=
  let s_known := fold_right Nat.mul 1 known in
  if Nat.eqb s_known 0 || negb (Nat.eqb (size t mod s_known) 0)
  then Err ShapeError
  else Ok (mkTensor (known ++ [size t / s_known]) (data t)).

(** [np.concatenate([a, b], axis=1)] on tensors of rank 3 with leading
    dimension 1: the other dimensions must agree. *)
Definition concatenate_tokens (a b : tensor) : result tensor :=
  match shape a, shape b with
  | [1; na; ca], [1; nb; cb] =>
      if Nat.eqb ca cb
      then Ok (mkTensor [1; na + nb; ca] (data a ++ data b))
      else Err ShapeError
  | _, _ => Err ShapeError
  end.

(** [scipy.ndimage.zoom(grid, (gs_new / gs_old, gs_new / gs_old, 1), order=1)]
    is a function of the grid and of the two side lengths. *)
Variable zoom : tensor -> nat -> nat -> result tensor.

(** [int(np.sqrt(n))], lines 187-188. The square root of a negative number
    is [nan], which [int] rejects. Below 2^52 the float64 root, rounded to
    nearest, truncates to the integer square root. From 2^52 on the rounded
    root can reach the next integer (at 2^52 + 2^27 it is 2^26 + 1, one more
    than the integer square root); it is never below the integer square
    root, and by how much it exceeds it is a parameter. (The counts are
    array dimensions, or array dimensions less [token_len].) *)
Variable sqrt_excess : Z -> nat.

Definition int_sqrt (n : Z) : result nat :=
  if (n <? 0)%Z then Err ShapeError
  else if (n <? 2 ^ 52)%Z then Ok (Z.to_nat (Z.sqrt n))
  else Ok (Z.to_nat (Z.sqrt n) + sqrt_excess n).

(** Lines 179-184: the pair [(posemb_tok, posemb_grid)]. *)
Definition split_tokens (token_len : Z) (posemb : tensor)
  : result (tensor * tensor) :=
  match shape posemb with
  | [1; n; c] =>
      if (token_len >? 0)%Z
      then
        let posemb_tok := slice_tokens 1 n c posemb in
        let posemb_grid := row0_from 1 n c posemb in
        let posemb_tok :=
          tile_tokens (Z.to_nat token_len) (Nat.min 1 n) c posemb_tok in
        Ok (posemb_tok, posemb_grid)
      else Ok (slice_tokens 0 n c posemb, row0_from 0 n c posemb)
  | _ => Err OutsideModel
  end.

(** Lines 168-195: the resampled embedding. *)
Definition resize_posemb (cfg : model_config) (posemb posemb_new : tensor)
  : result tensor :=
  match shape posemb_new with
  | _ :: ntok_new :: _ =>
      let token_len := token_len cfg in
      parts <- split_tokens token_len posemb ;;
      let posemb_tok := fst parts in
      let posemb_grid := snd parts in
      let ntok_new :=
        if (token_len >? 0)%Z
        then (Z.of_nat ntok_new - token_len)%Z else Z.of_nat ntok_new in
      gs_old <- int_sqrt (Z.of_nat (hd 0 (shape posemb_grid))) ;;
      gs_new <- int_sqrt ntok_new ;;
      posemb_grid <- reshape_infer posemb_grid [gs_old; gs_old] ;;
      posemb_grid <- zoom posemb_grid gs_new gs_old ;;
      posemb_grid <- reshape_infer posemb_grid [1; gs_new * gs_new] ;;
      concatenate_tokens posemb_tok posemb_grid
  | _ => Err ShapeError
  end.

(** ** Subscripting trees *)

(** [d[k]] on a dict. *)
Definition getitem (d : dict tree) (k : string) : result tree :=
  match dict_get d k with
  | Some v => Ok v
  | None => Err (KeyError k)
  end.

(** [v[k]] on a value of the tree: a tensor cannot be subscripted with a
    string. *)
Definition subscript (v : tree) (k : string) : result tree :=
  match v with
  | Dict d => getitem d k
  | Leaf _ => Err IndexError
  end.

(** [v[k] = x] on a value of the tree; the updated value is returned. *)
Definition store (v : tree) (k : string) (x : tree) : result tree :=
  match v with
  | Dict d => Ok (Dict (dict_set d k x))
  | Leaf _ => Err IndexError
  end.

(** [k in v] on a value of the tree; a float array contains no string. *)
Definition contains (v : tree) (k : string) : bool :=
  match v with
  | Dict d => dict_mem d k
  | Leaf _ => false
  end.

(** [v.shape]. *)
Definition shape_of (v : tree) : result (list nat) :=
  match v with
  | Leaf t => Ok (shape t)
  | Dict _ => Err AttributeError
  end.

(** [restored[a][b] = init[a][b]]: the right-hand side is evaluated first,
    then [restored[a]], then the store into it. *)
Definition copy_entry (init_params restored_params : dict tree)
    (a b : string) : result (dict tree) :=
  src <- getitem init_params a ;;
  x <- subscript src b ;;
  dst <- getitem restored_params a ;;
  dst <- store dst b x ;;
  Ok (dict_set restored_params a dst).

(** ** load_pretrained *)

(** Lines 146-149. *)
Definition drop_pre_logits (cfg : model_config) (restored_params : dict tree)
  : dict tree :=
  match representation_size cfg with
  | None =>
      if dict_mem restored_params "pre_logits"
      then dict_pop restored_params "pre_logits"
      else restored_params
  | Some _ => restored_params
  end.

(** Lines 150-151. *)
Definition overwrite_head (init_params restored_params : dict tree)
  : result (dict tree) :=
  restored_params <- copy_entry init_params restored_params "head" "kernel" ;;
  copy_entry init_params restored_params "head" "bias".

(** Lines 154-159: the body of the loop over the prompt groups. *)
Definition add_prompt_group (init_params : dict tree) (cfg : model_config)
    (restored_params : dict tree) (key : string) : result (dict tree) :=
  if dict_mem init_params key && negb (dict_mem restored_params key)
  then
    let restored_params := dict_set restored_params key (Dict []) in
    restored_params <- copy_entry init_params restored_params key "prompt" ;;
    if String.eqb key "prompt_pool"
    then
      match prompt_params cfg with
      | None => Err (KeyError "prompt_params")
      | Some pp =>
          match dict_get pp "prompt_pool" with
          | None => Err (KeyError "prompt_pool")
          | Some pool =>
              if Cfg.prompt_key pool
              then copy_entry init_params restored_params key "key"
              else Ok restored_params
          end
      end
    else Ok restored_params
  else Ok restored_params.

(** Lines 153-159. *)
Definition add_prompt_groups (init_params : dict tree) (cfg : model_config)
    (restored_params : dict tree) : result (dict tree) :=
  fold_left
    (fun acc key =>
       restored_params <- acc ;;
       add_prompt_group init_params cfg restored_params key)
    ["shared_prompt"; "task_specific_prompt"; "prompt_pool"]
    (Ok restored_params).

(** [t[a][b]] on a dict [t]. *)
Definition getitem2 (t : dict tree) (a b : string) : result tree :=
  v <- getitem t a ;; subscript v b.

(** [t['Transformer']['posembed_input']['pos_embedding']]. *)
Definition pos_embedding (t : dict tree) : result tree :=
  v <- getitem t "Transformer" ;;
  v <- subscript v "posembed_input" ;;
  subscript v "pos_embedding".

(** [t['Transformer']['posembed_input']['pos_embedding'] = x]. *)
Definition set_pos_embedding (t : dict tree) (x : tree) : result (dict tree) :=
  tr <- getitem t "Transformer" ;;
  pi <- subscript tr "posembed_input" ;;
  pi <- store pi "pos_embedding" x ;;
  tr <- store tr "posembed_input" pi ;;
  Ok (dict_set t "Transformer" tr).

(** Lines 161-196. *)
Definition rescale_posembed (init_params : dict tree) (cfg : model_config)
    (restored_params : dict tree) : result (dict tree) :=
  let transformer :=
    match dict_get restored_params "Transformer" with
    | Some v => v
    | None => Dict []
    end in
  if contains transformer "posembed_input"
  then
    posemb <- pos_embedding restored_params ;;
    posemb_new <- pos_embedding init_params ;;
    s <- shape_of posemb ;;
    s_new <- shape_of posemb_new ;;
    if list_eq_dec Nat.eq_dec s s_new
    then Ok restored_params
    else
      match posemb, posemb_new with
      | Leaf posemb, Leaf posemb_new =>
          posemb <- resize_posemb cfg posemb posemb_new ;;
          set_pos_embedding restored_params (Leaf posemb)
      | _, _ => Err AttributeError
      end
  else Ok restored_params.

(** Lines 146-198: what happens to [restored_params] once [inspect_params]
    has returned it. *)
Definition adapt (init_params : dict tree) (cfg : model_config)
    (restored_params : dict tree) : result (dict tree) :=
  let restored_params := drop_pre_logits cfg restored_params in
  restored_params <- overwrite_head init_params restored_params ;;
  restored_params <- add_prompt_groups init_params cfg restored_params ;;
  rescale_posembed init_params cfg restored_params.

(** [load_pretrained], given the tree [load(pretrained_path)] read from the
    checkpoint; [flax.core.freeze] leaves the contents as they are. *)
Definition load_pretrained (loaded init_params : dict tree)
    (model_config : model_config) : result (dict tree) :=
  restored_params <- inspect_params loaded init_params false false ;;
  adapt init_params model_config restored_params.

End Adapter.

Arguments mkTensor {elem} shape data.
Arguments shape {elem} t.
Arguments data {elem} t.
Arguments Leaf {elem} x.
Arguments Dict {elem} d.
Arguments tree_eq {elem} a b.
Arguments _flatten_dict {elem} d parent_key sep.
Arguments inspect_params {elem} params expected fail_if_extra fail_if_missing.
Arguments recover_tree {elem} keys values.
Arguments unflatten {elem} flat.
Arguments tensor_wf {elem} t.
Arguments flatten_tree {elem} t parent_key sep.
Arguments is_empty_dict {elem} v.
Arguments recover_empty {elem} expected_flat st k.
Arguments group_append {elem} sub_trees k_left item.
Arguments scan_key {elem} st kv.
Arguments recover_tree_fuel {elem} fuel keys values.
Arguments size {elem} t.
Arguments slice_tokens {elem} k n c posemb.
Arguments row0_from {elem} k n c posemb.
Arguments tile_tokens {elem} reps m c tok.
Arguments reshape_infer {elem} t known.
Arguments concatenate_tokens {elem} a b.
Arguments split_tokens {elem} token_len posemb.
Arguments int_sqrt sqrt_excess n : assert.
Arguments resize_posemb {elem} zoom sqrt_excess cfg posemb posemb_new.
Arguments getitem {elem} d k.
Arguments subscript {elem} v k.
Arguments store {elem} v k x.
Arguments contains {elem} v k.
Arguments shape_of {elem} v.
Arguments copy_entry {elem} init_params restored_params a b.
Arguments drop_pre_logits {elem} cfg restored_params.
Arguments overwrite_head {elem} init_params restored_params.
Arguments add_prompt_group {elem} init_params cfg restored_params key.
Arguments add_prompt_groups {elem} init_params cfg restored_params.
Arguments getitem2 {elem} t a b.
Arguments pos_embedding {elem} t.
Arguments set_pos_embedding {elem} t x.
Arguments rescale_posembed {elem} zoom sqrt_excess init_params cfg
  restored_params.
Arguments adapt {elem} zoom sqrt_excess init_params cfg restored_params.
Arguments load_pretrained {elem} zoom sqrt_excess loaded init_params
  model_config.


(** * Properties *)

(** ** Association lists *)

Section DictFacts.

Context {V : Type}.

Lemma dict_get_set_eq (d : dict V) (k : string) (v : V) :
  dict_get (dict_set d k v) k = Some v.
Proof.
  induction d as [|[k' v'] d IH]; simpl.
  - now rewrite String.eqb_refl.
  - destruct (String.eqb k' k) eqn:E; simpl; rewrite E; auto.
Qed.

Lemma dict_get_set_ne (d : dict V) (k k' : string) (v : V) :
  k <> k' -> dict_get (dict_set d k v) k' = dict_get d k'.
Proof.
  intros Hne. induction d as [|[k0 v0] d IH]; simpl.
  - destruct (String.eqb k k') eqn:E; auto.
    apply String.eqb_eq in E. contradiction.
  - destruct (String.eqb k0 k) eqn:E; simpl.
    + apply String.eqb_eq in E. subst k0.
      destruct (String.eqb k k') eqn:E'; auto.
      apply String.eqb_eq in E'. contradiction.
    + now rewrite IH.
Qed.

Lemma dict_set_set (d : dict V) (k : string) (v v' : V) :
  dict_set (dict_set d k v) k v' = dict_set d k v'.
Proof.
  induction d as [|[k0 v0] d IH]; simpl.
  - now rewrite String.eqb_refl.
  - destruct (String.eqb k0 k) eqn:E; simpl; rewrite E; auto.
    now rewrite IH.
Qed.

Lemma dict_get_pop_ne (d : dict V) (k k' : string) :
  k <> k' -> dict_get (dict_pop d k) k' = dict_get d k'.
Proof.
  intros Hne. induction d as [|[k0 v0] d IH]; simpl; auto.
  destruct (String.eqb k0 k) eqn:E; simpl.
  - apply String.eqb_eq in E. subst k0.
    destruct (String.eqb k k') eqn:E'; auto.
    apply String.eqb_eq in E'. contradiction.
  - now rewrite IH.
Qed.

Lemma dict_get_In (d : dict V) (k : string) (v : V) :
  dict_get d k = Some v -> In (k, v) d.
Proof.
  induction d as [|[k' v'] d IH]; simpl; try discriminate.
  destruct (String.eqb k' k) eqn:E; intros H.
  - apply String.eqb_eq in E. inversion H. subst. now left.
  - right. auto.
Qed.

Lemma dict_get_None (d : dict V) (k : string) :
  dict_get d k = None <-> ~ In k (keys d).
Proof.
  induction d as [|[k' v'] d IH]; simpl.
  - tauto.
  - destruct (String.eqb k' k) eqn:E.
    + apply String.eqb_eq in E. split; [discriminate | intros H; exfalso; auto].
    + apply String.eqb_neq in E. rewrite IH. tauto.
Qed.

Lemma dict_get_NoDup (d : dict V) (k : string) (v : V) :
  NoDup (keys d) -> In (k, v) d -> dict_get d k = Some v.
Proof.
  induction d as [|[k' v'] d IH]; simpl; intros Hnd Hin; [contradiction|].
  inversion Hnd as [|? ? Hnotin Hnd']. subst.
  destruct Hin as [Heq | Hin].
  - inversion Heq. subst. now rewrite String.eqb_refl.
  - destruct (String.eqb k' k) eqn:E.
    + apply String.eqb_eq in E. subst k'. exfalso. apply Hnotin.
      unfold keys. change k with (fst (k, v)). now apply in_map.
    + auto.
Qed.

Lemma dict_set_fresh (d : dict V) (k : string) (v : V) :
  ~ In k (keys d) -> dict_set d k v = d ++ [(k, v)].
Proof.
  induction d as [|[k' v'] d IH]; simpl; intros Hnotin; auto.
  destruct (String.eqb k' k) eqn:E.
  - apply String.eqb_eq in E. exfalso. auto.
  - rewrite IH; auto.
Qed.

Lemma dict_of_items_acc (items acc : list (string * V)) :
  NoDup (keys (acc ++ items)) ->
  fold_left (fun d kv => dict_set d (fst kv) (snd kv)) items acc = acc ++ items.
Proof.
  revert acc. induction items as [|[k v] items IH]; intros acc Hnd; simpl.
  - now rewrite app_nil_r.
  - rewrite dict_set_fresh.
    + rewrite IH; rewrite <- app_assoc; simpl; auto.
    + unfold keys in Hnd. rewrite map_app in Hnd. simpl in Hnd.
      apply NoDup_remove_2 in Hnd. intros Hin. apply Hnd.
      apply in_or_app. now left.
Qed.

(** A list of items with distinct keys is its own dict. *)
Lemma dict_of_items_NoDup (items : list (string * V)) :
  NoDup (keys items) -> dict_of_items items = items.
Proof.
  intros Hnd. unfold dict_of_items. now rewrite dict_of_items_acc.
Qed.

End DictFacts.

Lemma key_in_true (k : string) (s : list string) :
  key_in k s = true <-> In k s.
Proof.
  unfold key_in. rewrite existsb_exists. split.
  - intros [x [Hin E]]. apply String.eqb_eq in E. now subst.
  - intros Hin. exists k. split; auto. apply String.eqb_refl.
Qed.

Lemma key_in_add (k k' : string) (s : list string) :
  key_in k (keys_add k' s) = String.eqb k k' || key_in k s.
Proof.
  unfold keys_add. destruct (key_in k' s) eqn:E.
  - destruct (String.eqb k k') eqn:E'; auto.
    apply String.eqb_eq in E'. subst. now rewrite E.
  - unfold key_in. rewrite existsb_app. simpl.
    rewrite orb_false_r. apply orb_comm.
Qed.

Lemma nonempty_false {A : Type} (l : list A) : nonempty l = false <-> l = [].
Proof. destruct l; simpl; split; intros H; auto; discriminate. Qed.

(** ** C8: the number of special token slots *)

(** The formula of the specification: one slot for the classification token,
    plus [length * top_k] slots for a prompt pool. *)
Definition cls_slots (cfg : model_config) : Z :=
  match use_cls_token cfg with Some true => 1%Z | _ => 0%Z end.

Definition pool_slots (cfg : model_config) : Z :=
  match prompt_params cfg with
  | Some pp =>
      match dict_get pp "prompt_pool" with
      | Some p => (Cfg.length p * Cfg.top_k p)%Z
      | None => 0%Z
      end
  | None => 0%Z
  end.

(** C8: [token_len] is 1 when the configuration uses a classification token
    (0 otherwise) plus, when [prompt_params] has a [prompt_pool] entry, its
    [length] times its [top_k]; configurations that agree on these two
    options have the same [token_len], whatever their other fields are. *)
Theorem C8_token_len_formula :
  (forall cfg, token_len cfg = (cls_slots cfg + pool_slots cfg)%Z) /\
  (forall cfg cfg',
      cls_slots cfg = cls_slots cfg' ->
      pool_slots cfg = pool_slots cfg' ->
      token_len cfg = token_len cfg').
Proof.
  assert (H : forall cfg, token_len cfg = (cls_slots cfg + pool_slots cfg)%Z).
  { intros [rs cls pp]. unfold token_len, cls_slots, pool_slots. simpl.
    destruct pp as [pp|]; [|destruct cls as [[|]|]; reflexivity].
    destruct pp as [|kv pp]; simpl.
    - destruct cls as [[|]|]; reflexivity.
    - destruct kv as [k p]. simpl.
      destruct (String.eqb k "prompt_pool");
        [|destruct (dict_get pp "prompt_pool")];
        destruct cls as [[|]|]; simpl; lia. }
  split; [exact H|].
  intros cfg cfg' Hc Hp. rewrite !H. now rewrite Hc, Hp.
Qed.

(** ** C4, C1: the key-set reconciler *)

Section InspectFacts.

Context {elem : Type}.

(** The expected value under a flat key is an explicitly empty sub-tree. *)
Definition expected_empty (expected_flat : dict (tree elem)) (k : string)
  : bool :=
  match dict_get expected_flat k with
  | Some v => is_empty_dict v
  | None => false
  end.

(** The key sets as the specification words them: [missing] is what is
    expected but not restored, less the keys of empty expected sub-trees;
    [extra] is what is restored but not expected. *)
Definition missing_after_recovery (params expected : dict (tree elem))
  : list string :=
  let expected_flat := _flatten_dict expected "" "/" in
  filter (fun k => negb (expected_empty expected_flat k))
    (keys_diff (keys expected_flat) (keys (_flatten_dict params "" "/"))).

Definition extra_keys (params expected : dict (tree elem)) : list string :=
  keys_diff (keys (_flatten_dict params "" "/"))
    (keys (_flatten_dict expected "" "/")).

Lemma recover_empty_step (ef : dict (tree elem)) st k :
  recover_empty ef st k =
  if expected_empty ef k
  then (dict_set (fst st) k (Dict []), keys_add k (snd st))
  else st.
Proof.
  unfold recover_empty, expected_empty.
  destruct (dict_get ef k) as [v|]; reflexivity.
Qed.

(** The keys collected by the recovery loop. *)
Lemma recover_empty_keys (ef : dict (tree elem)) l st k :
  key_in k (snd (fold_left (recover_empty ef) l st)) =
  key_in k (snd st) || (key_in k l && expected_empty ef k).
Proof.
  revert st. induction l as [|k0 l IH]; intros st; simpl.
  - now rewrite orb_false_r.
  - rewrite IH, recover_empty_step.
    destruct (String.eqb k k0) eqn:E.
    + apply String.eqb_eq in E. subst k0.
      destruct (expected_empty ef k) eqn:Ee; simpl.
      * rewrite key_in_add, String.eqb_refl. simpl.
        now rewrite !orb_true_r.
      * now rewrite !andb_false_r.
    + simpl. destruct (expected_empty ef k0) eqn:Ee; simpl; auto.
      now rewrite key_in_add, E.
Qed.

(** The tree built by the recovery loop, seen through its lookups. *)
Lemma recover_empty_get (ef : dict (tree elem)) l st k :
  dict_get (fst (fold_left (recover_empty ef) l st)) k =
  if key_in k l && expected_empty ef k
  then Some (Dict [])
  else dict_get (fst st) k.
Proof.
  revert st. induction l as [|k0 l IH]; intros st; simpl; auto.
  rewrite IH, recover_empty_step.
  destruct (String.eqb k k0) eqn:E.
  - apply String.eqb_eq in E. subst k0. simpl.
    destruct (expected_empty ef k) eqn:Ee; simpl.
    + rewrite dict_get_set_eq. now destruct (key_in k l).
    + now rewrite andb_false_r.
  - simpl. destruct (key_in k l && expected_empty ef k); auto.
    destruct (expected_empty ef k0); simpl; auto.
    apply dict_get_set_ne. intros ->. now rewrite String.eqb_refl in E.
Qed.

Lemma missing_after_loop (ef : dict (tree elem)) missing params :
  keys_diff missing (snd (fold_left (recover_empty ef) missing (params, []))) =
  filter (fun k => negb (expected_empty ef k)) missing.
Proof.
  unfold keys_diff. apply filter_ext_in. intros k Hin.
  rewrite recover_empty_keys. simpl.
  apply key_in_true in Hin. now rewrite Hin.
Qed.

(** What [inspect_params] does, with the loop replaced by its result. *)
Lemma inspect_params_unfold (params expected : dict (tree elem)) fe fm :
  inspect_params params expected fe fm =
  let expected_flat := _flatten_dict expected "" "/" in
  let params_flat := _flatten_dict params "" "/" in
  let missing := missing_after_recovery params expected in
  let extra := extra_keys params expected in
  if (nonempty missing && fm) || (nonempty extra && fe)
  then Err (ValueError missing extra (keys params_flat) (keys expected_flat))
  else Ok (fst (fold_left (recover_empty expected_flat)
                  (keys_diff (keys expected_flat) (keys params_flat))
                  (params, []))).
Proof.
  unfold inspect_params, missing_after_recovery, extra_keys. cbv zeta.
  now rewrite missing_after_loop.
Qed.

(** C4: [inspect_params] raises exactly when [fail_if_missing] is set and
    keys are still missing after the recovery of empty sub-trees, or
    [fail_if_extra] is set and there are extra keys; the exception carries
    the missing, extra, restored and expected key sets; with both flags
    cleared it returns for every pair of trees. *)
Theorem C4_inspect_raises_iff (params expected : dict (tree elem))
    (fail_if_extra fail_if_missing : bool) :
  let missing := missing_after_recovery params expected in
  let extra := extra_keys params expected in
  ((exists e, inspect_params params expected fail_if_extra fail_if_missing
              = Err e) <->
   (fail_if_missing = true /\ missing <> []) \/
   (fail_if_extra = true /\ extra <> [])) /\
  (forall e,
      inspect_params params expected fail_if_extra fail_if_missing = Err e ->
      e = ValueError missing extra
            (keys (_flatten_dict params "" "/"))
            (keys (_flatten_dict expected "" "/"))) /\
  (exists r, inspect_params params expected false false = Ok r).
Proof.
  intros missing extra. rewrite !inspect_params_unfold. cbv zeta.
  fold missing extra. repeat split.
  - intros [e He].
    destruct (nonempty missing) eqn:Em, (nonempty extra) eqn:Ex,
      fail_if_missing, fail_if_extra; simpl in He; try discriminate;
      try (left; split; [reflexivity|]; intros Hm;
           apply nonempty_false in Hm; congruence);
      try (right; split; [reflexivity|]; intros Hx;
           apply nonempty_false in Hx; congruence).
  - intros [[-> Hm] | [-> Hx]].
    + destruct (nonempty missing) eqn:Em.
      * simpl. eauto.
      * apply nonempty_false in Em. contradiction.
    + destruct (nonempty extra) eqn:Ex.
      * simpl. rewrite orb_true_r. eauto.
      * apply nonempty_false in Ex. contradiction.
  - intros e He.
    destruct ((nonempty missing && fail_if_missing)
              || (nonempty extra && fail_if_extra)); congruence.
  - rewrite !andb_false_r. simpl. eauto.
Qed.

End InspectFacts.

(** C1: on [expected = {"a": {"norm": {}}}] and [restored = {}] the call
    with [fail_if_missing=True] returns, but the empty sub-tree is stored
    under the flat key ["a/norm"] at the top of the restored tree: the result
    is [{"a/norm": {}}], which is not the nested tree [{"a": {"norm": {}}}]. *)
Theorem C1_empty_key_stored_under_flat_name :
  inspect_params (elem := Z) [] [("a", Dict [("norm", Dict [])])] true true
  = Ok [("a/norm", Dict [])] /\
  ~ tree_eq (elem := Z) (Dict [("a/norm", Dict [])])
      (Dict [("a", Dict [("norm", Dict [])])]).
Proof.
  split.
  - reflexivity.
  - simpl. intros [_ [[v' [H _]] _]]. discriminate.
Qed.

(** ** C2, C6: the positional-embedding resampler *)

Section ResamplerFacts.

Context {elem : Type}.

(** [t[0, i]] for an embedding with [c] channels, and [t[i]] for a grid
    segment: the [i]-th token vector. *)
Definition token (c i : nat) (t : tensor elem) : list elem :=
  firstn c (skipn (i * c) (data t)).

(** The split as the specification words it: the grid segment is what
    follows the first [token_len] tokens. *)
Definition split_tokens_spec (token_len : Z) (posemb : tensor elem)
  : result (tensor elem * tensor elem) :=
  match shape posemb with
  | [1; n; c] =>
      if (token_len >? 0)%Z
      then Ok (tile_tokens (Z.to_nat token_len) (Nat.min 1 n) c
                 (slice_tokens 1 n c posemb),
               row0_from (Z.to_nat token_len) n c posemb)
      else Ok (slice_tokens 0 n c posemb, row0_from 0 n c posemb)
  | _ => Err OutsideModel
  end.

Lemma skipn_skipn_add {A : Type} (a b : nat) (l : list A) :
  skipn a (skipn b l) = skipn (b + a) l.
Proof.
  revert l. induction b as [|b IH]; intros l; simpl; auto.
  destruct l; simpl; auto. now rewrite skipn_nil.
Qed.

(** Every slot of a row repeated [reps] times is the row. *)
Lemma token_of_repeat (row : list elem) (reps j : nat) :
  j < reps ->
  firstn (List.length row)
    (skipn (j * List.length row) (List.concat (repeat row reps))) = row.
Proof.
  revert j. induction reps as [|reps IH]; intros j Hj; [lia|].
  simpl repeat. simpl List.concat. destruct j as [|j].
  - simpl. rewrite firstn_app, Nat.sub_diag, firstn_all. simpl.
    apply app_nil_r.
  - replace (S j * List.length row) with (List.length row + j * List.length row)
      by (simpl; lia).
    rewrite skipn_app, <- skipn_skipn_add.
    rewrite skipn_all, skipn_nil, Nat.add_comm, Nat.add_sub. simpl.
    apply IH. lia.
Qed.

(** With [token_len > 0] the code cuts after the first token. *)
Lemma split_tokens_positive (token_len : Z) (n c : nat)
    (posemb : tensor elem) :
  shape posemb = [1; n; c] ->
  (token_len > 0)%Z ->
  split_tokens token_len posemb =
  Ok (tile_tokens (Z.to_nat token_len) (Nat.min 1 n) c
        (slice_tokens 1 n c posemb),
      row0_from 1 n c posemb).
Proof.
  intros Hs Hpos. unfold split_tokens. rewrite Hs.
  assert (Hgt : (token_len >? 0)%Z = true) by (apply Z.gtb_lt; lia).
  now rewrite Hgt.
Qed.

Lemma first_token_length (n c : nat) (posemb : tensor elem) :
  shape posemb = [1; S n; c] ->
  tensor_wf posemb ->
  List.length (firstn c (data posemb)) = c.
Proof.
  intros Hs Hwf. unfold tensor_wf in Hwf. rewrite Hs in Hwf.
  cbn [fold_right] in Hwf. rewrite Nat.mul_1_l, Nat.mul_1_r in Hwf.
  rewrite length_firstn. apply Nat.min_l. rewrite Hwf. simpl. lia.
Qed.

(** Every slot of the tiled prefix is token 0 of the embedding. *)
Lemma tiled_prefix_token (reps n c j : nat) (posemb : tensor elem) :
  shape posemb = [1; S n; c] ->
  tensor_wf posemb ->
  j < reps ->
  token c j (tile_tokens reps 1 c (slice_tokens 1 (S n) c posemb))
  = token c 0 posemb.
Proof.
  intros Hs Hwf Hj.
  pose proof (first_token_length n c posemb Hs Hwf) as Hrow.
  unfold token, tile_tokens, slice_tokens. cbn [data].
  simpl Nat.min. rewrite Nat.mul_1_l. simpl skipn at 2.
  rewrite <- Hrow at 1 2. now apply token_of_repeat.
Qed.

(** C2, as the code has it: with [token_len > 0] an embedding of at least
    one token is split after its first token; the prefix is that token
    repeated [token_len] times and the grid segment is every token from
    index 1 onward. *)
Theorem C2_split_after_first_token (token_len : Z) (n c : nat)
    (posemb : tensor elem) :
  shape posemb = [1; S n; c] ->
  tensor_wf posemb ->
  (token_len > 0)%Z ->
  exists tok grid,
    split_tokens token_len posemb = Ok (tok, grid) /\
    shape tok = [1; Z.to_nat token_len; c] /\
    (forall j, j < Z.to_nat token_len -> token c j tok = token c 0 posemb) /\
    shape grid = [n; c] /\
    (forall i, token c i grid = token c (S i) posemb).
Proof.
  intros Hs Hwf Hpos.
  rewrite (split_tokens_positive token_len (S n) c posemb Hs Hpos).
  eexists. eexists. split; [reflexivity|].
  change (Nat.min 1 (S n)) with 1. repeat split.
  - unfold tile_tokens. cbn [shape]. now rewrite Nat.mul_1_l.
  - intros j Hj. now apply tiled_prefix_token.
  - unfold row0_from. cbn [shape]. now rewrite Nat.sub_succ, Nat.sub_0_r.
  - intros i. unfold token, row0_from. cbn [data].
    rewrite skipn_skipn_add. do 2 f_equal. simpl. lia.
Qed.

Section Zoom.

Variable zoom : tensor elem -> nat -> nat -> result (tensor elem).
Variable sqrt_excess : Z -> nat.

(** What is assumed of [scipy.ndimage.zoom]: zooming an array of shape
    (b, b, c) by the factors (a / b, a / b, 1) yields an array of shape
    (a, a, c), whose contents fill that shape. *)
Hypothesis zoom_grid :
  forall g a b c,
    shape g = [b; b; c] -> tensor_wf g -> 0 < a -> 0 < b ->
    exists z, zoom g a b = Ok z /\ shape z = [a; a; c] /\ tensor_wf z.

Lemma reshape_infer_ok (t : tensor elem) (known : list nat) (q : nat) :
  size t = fold_right Nat.mul 1 known * q ->
  0 < fold_right Nat.mul 1 known ->
  reshape_infer t known = Ok (mkTensor (known ++ [q]) (data t)).
Proof.
  intros Hsize Hpos. unfold reshape_infer. rewrite Hsize.
  rewrite Nat.mul_comm, Nat.Div0.mod_mul, Nat.div_mul by lia.
  destruct (Nat.eqb_spec (fold_right Nat.mul 1 known) 0); [lia|].
  reflexivity.
Qed.

(** C6: a restored embedding of shape (1, 197, C) resampled for an expected
    embedding of shape (1, 401, C) with one special token is an embedding of
    shape (1, 401, C) whose contents fill that shape: token 0 of the
    restored embedding followed by the 20 by 20 grid that
    [scipy.ndimage.zoom] makes of the 14 by 14 grid of the restored tokens
    1 to 196. Its slot 0 is slot 0 of the restored embedding. *)
Theorem C6_resize_197_to_401 (cfg : model_config)
    (posemb posemb_new : tensor elem) (C : nat) :
  shape posemb = [1; 197; C] ->
  tensor_wf posemb ->
  shape posemb_new = [1; 401; C] ->
  token_len cfg = 1%Z ->
  exists out z,
    zoom (mkTensor [14; 14; C] (skipn C (data posemb))) 20 14 = Ok z /\
    resize_posemb zoom sqrt_excess cfg posemb posemb_new = Ok out /\
    shape out = [1; 401; C] /\
    tensor_wf out /\
    data out = firstn C (data posemb) ++ data z /\
    token C 0 out = token C 0 posemb.
Proof.
  intros Hs Hwf Hnew Htok.
  pose proof (first_token_length 196 C posemb Hs Hwf) as Hrow.
  assert (Hlen : List.length (data posemb) = 197 * C).
  { unfold tensor_wf in Hwf. rewrite Hs in Hwf. cbn [fold_right] in Hwf.
    lia. }
  assert (Hgwf : tensor_wf (mkTensor [14; 14; C] (skipn C (data posemb)))).
  { unfold tensor_wf. cbn [shape data fold_right].
    rewrite length_skipn, Hlen. lia. }
  destruct (zoom_grid (mkTensor [14; 14; C] (skipn C (data posemb)))
              20 14 C eq_refl Hgwf) as [z [Hz [Hzs Hzwf]]]; [lia|lia|].
  unfold resize_posemb. rewrite Hnew, Htok.
  rewrite (split_tokens_positive 1 197 C posemb Hs eq_refl).
  cbn [bind fst snd].
  set (tok := tile_tokens (Z.to_nat 1) (Nat.min 1 197) C
                (slice_tokens 1 197 C posemb)).
  set (grid := row0_from 1 197 C posemb).
  assert (Hgrid : shape grid = [196; C]) by reflexivity.
  assert (Htoks : shape tok = [1; 1; C]) by reflexivity.
  assert (Hdtok : data tok = firstn C (data posemb)).
  { unfold tok, tile_tokens, slice_tokens. cbn [data].
    change (Z.to_nat 1) with 1. change (Nat.min 1 197) with 1.
    cbn [repeat List.concat]. now rewrite app_nil_r, Nat.mul_1_l. }
  assert (Hdgrid : data grid = skipn C (data posemb)).
  { unfold grid, row0_from. cbn [data]. now rewrite Nat.mul_1_l. }
  clearbody tok grid.
  rewrite Hgrid. cbn [hd].
  change (1 >? 0)%Z with true. cbv iota.
  change (Z.of_nat 401 - 1)%Z with 400%Z.
  change (int_sqrt sqrt_excess (Z.of_nat 196)) with (@Ok nat 14).
  change (int_sqrt sqrt_excess 400) with (@Ok nat 20).
  cbn [bind].
  rewrite (reshape_infer_ok grid [14; 14] C);
    [|unfold size; rewrite Hgrid; cbn [fold_right]; lia
     |cbn [fold_right]; lia].
  cbn [bind app]. rewrite Hdgrid, Hz. cbn [bind].
  rewrite (reshape_infer_ok z [1; 20 * 20] C);
    [|unfold size; rewrite Hzs; cbn [fold_right]; lia
     |cbn [fold_right]; lia].
  cbn [bind]. unfold concatenate_tokens. cbn [shape app].
  rewrite Htoks, Nat.eqb_refl.
  exists (mkTensor [1; 1 + 20 * 20; C] (data tok ++ data z)), z.
  split; [reflexivity|]. split; [reflexivity|]. split; [reflexivity|].
  split; [|split].
  - unfold tensor_wf in *. cbn [shape data]. rewrite Hzs in Hzwf.
    cbn [fold_right] in *. rewrite length_app, Hdtok, Hrow, Hzwf. lia.
  - cbn [data]. now rewrite Hdtok.
  - unfold token. cbn [data]. rewrite Nat.mul_0_l. cbn [skipn].
    rewrite Hdtok, firstn_app, Hrow, Nat.sub_diag. cbn [firstn].
    rewrite app_nil_r, firstn_firstn, Nat.min_id. reflexivity.
Qed.

End Zoom.

End ResamplerFacts.

(** ** C5, C7, C9, C10: head and prompt substitution in load_pretrained *)

Section SubstitutionFacts.

Context {elem : Type}.

Implicit Types (t restored init_params : dict (tree elem)).

Lemma bind_Ok {A B : Type} (r : result A) (f : A -> result B) (b : B) :
  bind r f = Ok b -> exists a, r = Ok a /\ f a = Ok b.
Proof. destruct r as [a|e]; simpl; intros H; [eauto | discriminate]. Qed.

Lemma getitem_Ok t k v : getitem t k = Ok v <-> dict_get t k = Some v.
Proof.
  unfold getitem. destruct (dict_get t k); split; intros H;
    inversion H; auto.
Qed.

Lemma dict_mem_get {V : Type} (d d' : dict V) k k' :
  dict_get d k = dict_get d' k' -> dict_mem d k = dict_mem d' k'.
Proof. unfold dict_mem. now intros ->. Qed.

(** [copy_entry] succeeds exactly when the source entry exists and the
    destination is a dict, and then rebinds one key of the destination. *)
Lemma copy_entry_Ok init_params t a b t' :
  copy_entry init_params t a b = Ok t' <->
  exists x d,
    getitem2 init_params a b = Ok x /\
    dict_get t a = Some (Dict d) /\
    t' = dict_set t a (Dict (dict_set d b x)).
Proof.
  unfold copy_entry, getitem2. split.
  - intros H.
    apply bind_Ok in H. destruct H as [src [Hsrc H]].
    apply bind_Ok in H. destruct H as [x [Hx H]].
    apply bind_Ok in H. destruct H as [dst [Hdst H]].
    apply bind_Ok in H. destruct H as [dst' [Hst H]].
    destruct dst as [|d]; simpl in Hst; [discriminate|].
    exists x, d. rewrite Hsrc. simpl. apply getitem_Ok in Hdst.
    inversion Hst. inversion H. subst. auto.
  - intros [x [d [Hx [Hd ->]]]].
    destruct (getitem init_params a) as [src|]; simpl in *; [|discriminate].
    rewrite Hx. simpl. apply getitem_Ok in Hd. rewrite Hd. reflexivity.
Qed.

Lemma copy_entry_unfold init_params t a b :
  copy_entry init_params t a b =
  x <- getitem2 init_params a b ;;
  dst <- getitem t a ;;
  dst <- store dst b x ;;
  Ok (dict_set t a dst).
Proof.
  unfold copy_entry, getitem2.
  now destruct (getitem init_params a).
Qed.

(** The exceptions of a two-level lookup. *)
Lemma getitem2_Err t a b e :
  getitem2 t a b = Err e ->
  e = KeyError a \/ e = KeyError b \/ e = IndexError.
Proof.
  unfold getitem2, getitem.
  destruct (dict_get t a) as [[x|d]|]; simpl.
  - intros H. inversion H. tauto.
  - unfold getitem. destruct (dict_get d b); intros H; inversion H. tauto.
  - intros H. inversion H. tauto.
Qed.

Lemma copy_entry_other init_params t a b t' k :
  copy_entry init_params t a b = Ok t' -> a <> k ->
  dict_get t' k = dict_get t k.
Proof.
  intros H Hne. apply copy_entry_Ok in H.
  destruct H as [x [d [_ [_ ->]]]]. now apply dict_get_set_ne.
Qed.

Lemma drop_pre_logits_other cfg t k :
  k <> "pre_logits" ->
  dict_get (drop_pre_logits cfg t) k = dict_get t k.
Proof.
  intros Hne. unfold drop_pre_logits.
  destruct (representation_size cfg); auto.
  destruct (dict_mem t "pre_logits"); auto.
  apply dict_get_pop_ne. congruence.
Qed.

(** After the head overwrite, the head holds the expected kernel and bias. *)
Lemma overwrite_head_Ok init_params t t' :
  overwrite_head init_params t = Ok t' <->
  exists kernel bias h,
    getitem2 init_params "head" "kernel" = Ok kernel /\
    getitem2 init_params "head" "bias" = Ok bias /\
    dict_get t "head" = Some (Dict h) /\
    t' = dict_set t "head"
           (Dict (dict_set (dict_set h "kernel" kernel) "bias" bias)).
Proof.
  unfold overwrite_head. split.
  - intros H. apply bind_Ok in H. destruct H as [t1 [H1 H2]].
    apply copy_entry_Ok in H1. destruct H1 as [kernel [h [Hk [Hh ->]]]].
    apply copy_entry_Ok in H2. destruct H2 as [bias [h' [Hb [Hh' ->]]]].
    rewrite dict_get_set_eq in Hh'. inversion Hh'. subst h'.
    exists kernel, bias, h. repeat split; auto.
    apply dict_set_set.
  - intros [kernel [bias [h [Hk [Hb [Hh ->]]]]]].
    assert (H1 : copy_entry init_params t "head" "kernel" =
                 Ok (dict_set t "head" (Dict (dict_set h "kernel" kernel)))).
    { apply copy_entry_Ok. eauto. }
    rewrite H1. simpl. apply copy_entry_Ok.
    exists bias, (dict_set h "kernel" kernel). repeat split; auto.
    + apply dict_get_set_eq.
    + symmetry. apply dict_set_set.
Qed.

Lemma overwrite_head_other init_params t t' k :
  overwrite_head init_params t = Ok t' -> k <> "head" ->
  dict_get t' k = dict_get t k.
Proof.
  intros H Hne. apply overwrite_head_Ok in H.
  destruct H as [? [? [? [_ [_ [_ ->]]]]]]. apply dict_get_set_ne. congruence.
Qed.

(** The configuration asks for a learned key next to each pooled prompt. *)
Definition prompt_key_flag (cfg : model_config) : bool :=
  match prompt_params cfg with
  | Some pp =>
      match dict_get pp "prompt_pool" with
      | Some pool => Cfg.prompt_key pool
      | None => false
      end
  | None => false
  end.

(** One turn of the loop over the prompt groups. *)
Lemma add_prompt_group_Ok init_params cfg t key t' :
  add_prompt_group init_params cfg t key = Ok t' ->
  if dict_mem init_params key && negb (dict_mem t key)
  then exists p,
      getitem2 init_params key "prompt" = Ok p /\
      if String.eqb key "prompt_pool" && prompt_key_flag cfg
      then exists kx,
          getitem2 init_params key "key" = Ok kx /\
          t' = dict_set (dict_set (dict_set t key (Dict [])) key
                           (Dict [("prompt", p)])) key
                 (Dict [("prompt", p); ("key", kx)])
      else t' = dict_set (dict_set t key (Dict [])) key (Dict [("prompt", p)])
  else t' = t.
Proof.
  unfold add_prompt_group, prompt_key_flag.
  destruct (dict_mem init_params key && negb (dict_mem t key));
    [|intros H; now inversion H].
  intros H. apply bind_Ok in H. destruct H as [t1 [H1 H2]].
  apply copy_entry_Ok in H1. destruct H1 as [p [d [Hp [Hd ->]]]].
  rewrite dict_get_set_eq in Hd. inversion Hd. subst d. simpl dict_set at 2 in H2.
  simpl dict_set at 1.
  exists p. split; auto.
  destruct (String.eqb key "prompt_pool"); simpl andb;
    [|now inversion H2].
  destruct (prompt_params cfg) as [pp|]; [|discriminate].
  destruct (dict_get pp "prompt_pool") as [pool|]; [|discriminate].
  destruct (Cfg.prompt_key pool); [|now inversion H2].
  apply copy_entry_Ok in H2. destruct H2 as [kx [d [Hkx [Hd' ->]]]].
  rewrite dict_get_set_eq in Hd'. inversion Hd'. subst d.
  exists kx. split; auto.
Qed.

Lemma add_prompt_group_other init_params cfg t key t' k :
  add_prompt_group init_params cfg t key = Ok t' -> key <> k ->
  dict_get t' k = dict_get t k.
Proof.
  intros H Hne. apply add_prompt_group_Ok in H.
  destruct (dict_mem init_params key && negb (dict_mem t key));
    [|now subst].
  destruct H as [p [_ H]].
  destruct (String.eqb key "prompt_pool" && prompt_key_flag cfg).
  - destruct H as [kx [_ ->]]. now rewrite !dict_get_set_ne.
  - subst. now rewrite !dict_get_set_ne.
Qed.

(** The bindings of a group the loop turn is about. *)
Lemma add_prompt_group_same init_params cfg t key t' :
  add_prompt_group init_params cfg t key = Ok t' ->
  (dict_mem init_params key = true -> dict_mem t key = false ->
   exists p,
     getitem2 init_params key "prompt" = Ok p /\
     if String.eqb key "prompt_pool" && prompt_key_flag cfg
     then exists kx,
         getitem2 init_params key "key" = Ok kx /\
         dict_get t' key = Some (Dict [("prompt", p); ("key", kx)])
     else dict_get t' key = Some (Dict [("prompt", p)])) /\
  (dict_mem t key = true -> dict_get t' key = dict_get t key).
Proof.
  intros H. apply add_prompt_group_Ok in H. split.
  - intros Hi Hr. rewrite Hi, Hr in H. simpl in H.
    destruct H as [p [Hp H]]. exists p. split; auto.
    destruct (String.eqb key "prompt_pool" && prompt_key_flag cfg).
    + destruct H as [kx [Hkx ->]]. exists kx. split; auto.
      apply dict_get_set_eq.
    + subst. apply dict_get_set_eq.
  - intros Hr. rewrite Hr, andb_false_r in H. now subst.
Qed.

Lemma add_prompt_groups_Ok init_params cfg t t' :
  add_prompt_groups init_params cfg t = Ok t' ->
  exists t1 t2,
    add_prompt_group init_params cfg t "shared_prompt" = Ok t1 /\
    add_prompt_group init_params cfg t1 "task_specific_prompt" = Ok t2 /\
    add_prompt_group init_params cfg t2 "prompt_pool" = Ok t'.
Proof.
  unfold add_prompt_groups. cbn [fold_left bind].
  intros H. apply bind_Ok in H. destruct H as [t2 [H H3]].
  apply bind_Ok in H. destruct H as [t1 [H1 H2]]. eauto.
Qed.

Lemma add_prompt_groups_other init_params cfg t t' k :
  add_prompt_groups init_params cfg t = Ok t' ->
  ~ In k ["shared_prompt"; "task_specific_prompt"; "prompt_pool"] ->
  dict_get t' k = dict_get t k.
Proof.
  intros H Hk. apply add_prompt_groups_Ok in H.
  destruct H as [t1 [t2 [H1 [H2 H3]]]]. simpl in Hk.
  rewrite (add_prompt_group_other _ _ _ _ _ k H3) by tauto.
  rewrite (add_prompt_group_other _ _ _ _ _ k H2) by tauto.
  apply (add_prompt_group_other _ _ _ _ _ k H1). tauto.
Qed.

(** The loop over the prompt groups, group by group. *)
Lemma add_prompt_groups_spec init_params cfg restored res key :
  In key ["shared_prompt"; "task_specific_prompt"; "prompt_pool"] ->
  add_prompt_groups init_params cfg restored = Ok res ->
  (dict_mem init_params key = true -> dict_mem restored key = false ->
   exists p,
     getitem2 init_params key "prompt" = Ok p /\
     if String.eqb key "prompt_pool" && prompt_key_flag cfg
     then exists kx,
         getitem2 init_params key "key" = Ok kx /\
         dict_get res key = Some (Dict [("prompt", p); ("key", kx)])
     else dict_get res key = Some (Dict [("prompt", p)])) /\
  (dict_mem restored key = true -> dict_get res key = dict_get restored key).
Proof.
  intros Hkey H. apply add_prompt_groups_Ok in H.
  destruct H as [t1 [t2 [H1 [H2 H3]]]].
  destruct Hkey as [<- | [<- | [<- | []]]].
  - assert (E : dict_get res "shared_prompt" = dict_get t1 "shared_prompt").
    { rewrite (add_prompt_group_other _ _ _ _ _ _ H3) by discriminate.
      apply (add_prompt_group_other _ _ _ _ _ _ H2). discriminate. }
    rewrite E. now apply add_prompt_group_same.
  - assert (E : dict_get res "task_specific_prompt"
                = dict_get t2 "task_specific_prompt").
    { apply (add_prompt_group_other _ _ _ _ _ _ H3). discriminate. }
    assert (E1 : dict_get t1 "task_specific_prompt"
                 = dict_get restored "task_specific_prompt").
    { apply (add_prompt_group_other _ _ _ _ _ _ H1). discriminate. }
    rewrite E, <- E1, <- (dict_mem_get _ _ _ _ E1).
    now apply add_prompt_group_same.
  - assert (E1 : dict_get t2 "prompt_pool" = dict_get restored "prompt_pool").
    { rewrite (add_prompt_group_other _ _ _ _ _ _ H2) by discriminate.
      apply (add_prompt_group_other _ _ _ _ _ _ H1). discriminate. }
    rewrite <- E1, <- (dict_mem_get _ _ _ _ E1).
    now apply add_prompt_group_same.
Qed.

End SubstitutionFacts.

Section LoadFacts.

Context {elem : Type}.

Variable zoom : tensor elem -> nat -> nat -> result (tensor elem).
Variable sqrt_excess : Z -> nat.

Implicit Types (t restored loaded init_params : dict (tree elem)).

Lemma pos_embedding_Ok t x :
  pos_embedding t = Ok x <->
  exists tr pi,
    dict_get t "Transformer" = Some (Dict tr) /\
    dict_get tr "posembed_input" = Some (Dict pi) /\
    dict_get pi "pos_embedding" = Some x.
Proof.
  unfold pos_embedding, getitem. split.
  - destruct (dict_get t "Transformer") as [[|tr]|]; simpl; try discriminate.
    unfold getitem.
    destruct (dict_get tr "posembed_input") as [[|pi]|] eqn:Epi; simpl;
      try discriminate.
    intros H. apply getitem_Ok in H. eauto.
  - intros [tr [pi [-> [Hpi Hx]]]]. simpl. unfold getitem. rewrite Hpi. simpl.
    now apply getitem_Ok.
Qed.

(** The embedding is found through the binding of ["Transformer"] alone. *)
Lemma pos_embedding_ext t t' :
  dict_get t' "Transformer" = dict_get t "Transformer" ->
  pos_embedding t' = pos_embedding t.
Proof. unfold pos_embedding, getitem. now intros ->. Qed.

Lemma getitem2_ext t t' a b :
  dict_get t' a = dict_get t a -> getitem2 t' a b = getitem2 t a b.
Proof. unfold getitem2, getitem. now intros ->. Qed.

Lemma rescale_posembed_other init_params cfg t t' k :
  rescale_posembed zoom sqrt_excess init_params cfg t = Ok t' ->
  k <> "Transformer" ->
  dict_get t' k = dict_get t k.
Proof.
  unfold rescale_posembed. intros H Hne.
  destruct (contains _ "posembed_input"); [|now inversion H].
  apply bind_Ok in H. destruct H as [posemb [_ H]].
  apply bind_Ok in H. destruct H as [posemb_new [_ H]].
  apply bind_Ok in H. destruct H as [s [_ H]].
  apply bind_Ok in H. destruct H as [s_new [_ H]].
  destruct (list_eq_dec Nat.eq_dec s s_new); [now inversion H|].
  destruct posemb as [posemb|]; [|discriminate].
  destruct posemb_new as [posemb_new|]; [|discriminate].
  apply bind_Ok in H. destruct H as [x [_ H]].
  unfold set_pos_embedding in H.
  apply bind_Ok in H. destruct H as [tr [_ H]].
  apply bind_Ok in H. destruct H as [pi [_ H]].
  apply bind_Ok in H. destruct H as [pi' [_ H]].
  apply bind_Ok in H. destruct H as [tr' [_ H]].
  inversion H. apply dict_get_set_ne. congruence.
Qed.

(** Equal shapes: the rescaling step returns the tree it was given. *)
Lemma rescale_posembed_same_shape init_params cfg t p q :
  pos_embedding t = Ok (Leaf p) ->
  pos_embedding init_params = Ok (Leaf q) ->
  shape p = shape q ->
  rescale_posembed zoom sqrt_excess init_params cfg t = Ok t.
Proof.
  intros Hp Hq Hs. unfold rescale_posembed. rewrite Hp, Hq.
  apply pos_embedding_Ok in Hp. destruct Hp as [tr [pi [Htr [Hpi _]]]].
  rewrite Htr. unfold contains, dict_mem. rewrite Hpi.
  cbn [bind shape_of]. rewrite Hs.
  destruct (list_eq_dec Nat.eq_dec (shape q) (shape q)); congruence.
Qed.

Lemma adapt_Ok init_params cfg restored r :
  adapt zoom sqrt_excess init_params cfg restored = Ok r ->
  exists t1 t2,
    overwrite_head init_params (drop_pre_logits cfg restored) = Ok t1 /\
    add_prompt_groups init_params cfg t1 = Ok t2 /\
    rescale_posembed zoom sqrt_excess init_params cfg t2 = Ok r.
Proof.
  unfold adapt. intros H.
  apply bind_Ok in H. destruct H as [t1 [H1 H]].
  apply bind_Ok in H. destruct H as [t2 [H2 H]]. eauto.
Qed.

(** C5: whenever [load_pretrained] returns, the head of the returned tree
    holds the kernel and the bias of [init_params], whatever the checkpoint
    stored there. *)
Theorem C5_head_is_reinitialised loaded init_params cfg r :
  load_pretrained zoom sqrt_excess loaded init_params cfg = Ok r ->
  exists kernel bias,
    getitem2 init_params "head" "kernel" = Ok kernel /\
    getitem2 init_params "head" "bias" = Ok bias /\
    getitem2 r "head" "kernel" = Ok kernel /\
    getitem2 r "head" "bias" = Ok bias.
Proof.
  unfold load_pretrained. intros H.
  apply bind_Ok in H. destruct H as [restored [_ H]].
  apply adapt_Ok in H. destruct H as [t1 [t2 [H1 [H2 H3]]]].
  apply overwrite_head_Ok in H1.
  destruct H1 as [kernel [bias [h [Hk [Hb [_ ->]]]]]].
  exists kernel, bias. repeat split; auto.
  - rewrite (getitem2_ext (dict_set (drop_pre_logits cfg restored) "head"
       (Dict (dict_set (dict_set h "kernel" kernel) "bias" bias))) r).
    + unfold getitem2, getitem. rewrite dict_get_set_eq. simpl.
      unfold getitem. rewrite dict_get_set_ne by discriminate.
      now rewrite dict_get_set_eq.
    + rewrite (rescale_posembed_other _ _ _ _ _ H3) by discriminate.
      apply (add_prompt_groups_other _ _ _ _ _ H2).
      simpl. intros [E|[E|[E|[]]]]; discriminate.
  - rewrite (getitem2_ext (dict_set (drop_pre_logits cfg restored) "head"
       (Dict (dict_set (dict_set h "kernel" kernel) "bias" bias))) r).
    + unfold getitem2, getitem. rewrite dict_get_set_eq. simpl.
      unfold getitem. now rewrite dict_get_set_eq.
    + rewrite (rescale_posembed_other _ _ _ _ _ H3) by discriminate.
      apply (add_prompt_groups_other _ _ _ _ _ H2).
      simpl. intros [E|[E|[E|[]]]]; discriminate.
Qed.

(** C7: for each of the three prompt groups, a group that the expected tree
    has and the restored tree (as [inspect_params] returned it) lacks is
    created in the tree that [load_pretrained] returns, holding the expected
    [prompt] tensor, and for [prompt_pool] also the expected [key] tensor
    exactly when the configuration's [prompt_key] flag is set; a group that
    the restored tree already has keeps its restored value. *)
Theorem C7_prompt_groups loaded init_params cfg restored r key :
  In key ["shared_prompt"; "task_specific_prompt"; "prompt_pool"] ->
  inspect_params loaded init_params false false = Ok restored ->
  load_pretrained zoom sqrt_excess loaded init_params cfg = Ok r ->
  (dict_mem init_params key = true -> dict_mem restored key = false ->
   exists p,
     getitem2 init_params key "prompt" = Ok p /\
     if String.eqb key "prompt_pool" && prompt_key_flag cfg
     then exists kx,
         getitem2 init_params key "key" = Ok kx /\
         dict_get r key = Some (Dict [("prompt", p); ("key", kx)])
     else dict_get r key = Some (Dict [("prompt", p)])) /\
  (dict_mem restored key = true -> dict_get r key = dict_get restored key).
Proof.
  intros Hkey Hi H. unfold load_pretrained in H. rewrite Hi in H.
  cbn [bind] in H. apply adapt_Ok in H.
  destruct H as [t1 [t2 [H1 [H2 H3]]]].
  assert (Hother : key <> "head" /\ key <> "pre_logits" /\
                   key <> "Transformer").
  { destruct Hkey as [<- | [<- | [<- | []]]]; repeat split; discriminate. }
  destruct Hother as [Hh [Hp Ht]].
  assert (E1 : dict_get t1 key = dict_get restored key).
  { rewrite (overwrite_head_other _ _ _ _ H1) by auto.
    now apply drop_pre_logits_other. }
  rewrite (rescale_posembed_other _ _ _ _ _ H3) by auto.
  rewrite <- E1, <- (dict_mem_get _ _ _ _ E1).
  now apply add_prompt_groups_spec.
Qed.

(** C9: when the positional embedding of the restored tree has the shape of
    the expected one, the rescaling step returns its tree as it is, and the
    tree returned by [load_pretrained] holds the restored embedding. *)
Theorem C9_same_shape_passes_through loaded init_params cfg restored p q :
  inspect_params loaded init_params false false = Ok restored ->
  pos_embedding restored = Ok (Leaf p) ->
  pos_embedding init_params = Ok (Leaf q) ->
  shape p = shape q ->
  (forall t, pos_embedding t = Ok (Leaf p) ->
             rescale_posembed zoom sqrt_excess init_params cfg t = Ok t) /\
  (forall r, load_pretrained zoom sqrt_excess loaded init_params cfg = Ok r ->
             pos_embedding r = Ok (Leaf p)).
Proof.
  intros Hi Hp Hq Hs. split.
  - intros t Ht. now apply (rescale_posembed_same_shape _ _ _ p q).
  - intros r H. unfold load_pretrained in H. rewrite Hi in H. simpl in H.
    apply adapt_Ok in H. destruct H as [t1 [t2 [H1 [H2 H3]]]].
    assert (E : pos_embedding t2 = Ok (Leaf p)).
    { rewrite <- Hp. apply pos_embedding_ext.
      rewrite (add_prompt_groups_other _ _ _ _ _ H2)
        by (simpl; intros [E|[E|[E|[]]]]; discriminate).
      rewrite (overwrite_head_other _ _ _ _ H1) by discriminate.
      apply drop_pre_logits_other. discriminate. }
    rewrite (rescale_posembed_same_shape _ _ _ p q E Hq Hs) in H3.
    now inversion H3; subst.
Qed.

(** C10, as the code has it: with both flags cleared the reconciliation
    returns; when the reconciled tree has no ["head"], the head overwrite
    raises a lookup error ([KeyError "head"] when the expected tree has
    [head/kernel]) and never the [ValueError] of [inspect_params]; a head
    that is a dict, with or without [kernel] and [bias], is overwritten
    without an error. *)
Theorem C10_missing_head_raises_KeyError loaded init_params cfg :
  exists restored,
    inspect_params loaded init_params false false = Ok restored /\
    (dict_get loaded "head" = None ->
     expected_empty (_flatten_dict init_params "" "/") "head" = false ->
     dict_get restored "head" = None) /\
    (dict_get restored "head" = None ->
     exists e,
       load_pretrained zoom sqrt_excess loaded init_params cfg = Err e /\
       (e = KeyError "head" \/ e = KeyError "kernel" \/ e = IndexError) /\
       (forall kernel,
           getitem2 init_params "head" "kernel" = Ok kernel ->
           e = KeyError "head")) /\
    (forall h kernel bias,
        dict_get restored "head" = Some (Dict h) ->
        getitem2 init_params "head" "kernel" = Ok kernel ->
        getitem2 init_params "head" "bias" = Ok bias ->
        exists t,
          overwrite_head init_params (drop_pre_logits cfg restored) = Ok t).
Proof.
  rewrite inspect_params_unfold. cbv zeta. rewrite !andb_false_r.
  cbn [orb]. eexists. split; [reflexivity|]. repeat split.
  - intros Hl He. rewrite recover_empty_get. cbn [fst].
    now rewrite He, andb_false_r.
  - intros Hr. unfold load_pretrained.
    rewrite inspect_params_unfold. cbv zeta. rewrite !andb_false_r.
    cbn [orb bind].
    match goal with
    | H : dict_get ?R "head" = None |- _ => set (restored := R) in *
    end.
    unfold adapt, overwrite_head. rewrite copy_entry_unfold.
    assert (Hd : getitem (drop_pre_logits cfg restored) "head"
                 = Err (KeyError "head")).
    { unfold getitem. rewrite drop_pre_logits_other by discriminate.
      now rewrite Hr. }
    destruct (getitem2 init_params "head" "kernel") as [kernel|e0] eqn:Hk;
      cbn [bind].
    + rewrite Hd. cbn [bind]. eexists. split; [reflexivity|].
      split; [tauto|]. reflexivity.
    + eexists. split; [reflexivity|]. split.
      * now apply getitem2_Err in Hk.
      * discriminate.
  - intros h kernel bias Hh Hk Hb. eexists. apply overwrite_head_Ok.
    exists kernel, bias, h. repeat split; auto.
    rewrite drop_pre_logits_other by discriminate. exact Hh.
Qed.

End LoadFacts.

(** ** C3: flattening and recovering a tree *)

(** *** Paths *)

(** [parent + '/' + k]. *)
Definition join (parent k : string) : string := (parent ++ "/" ++ k)%string.

Lemma join_assoc (a b c : string) : join (join a b) c = join a (join b c).
Proof.
  unfold join. induction a as [|x a IH]; simpl in *; auto. now f_equal.
Qed.

Lemma join_inj (a b c : string) : join a b = join a c -> b = c.
Proof.
  unfold join. induction a as [|x a IH]; simpl; intros H.
  - now inversion H.
  - inversion H. auto.
Qed.

Lemma join_truthy (a b : string) : truthy_str (join a b) = true.
Proof. unfold join. destruct a; reflexivity. Qed.

Lemma join_length (a b : string) :
  String.length (join a b) = S (String.length a + String.length b).
Proof.
  unfold join. induction a as [|x a IH]; simpl; auto.
Qed.

Lemma contains_sep_join (a b : string) : contains_sep (join a b) = true.
Proof.
  unfold join. induction a as [|x a IH]; simpl; auto.
  now destruct (Ascii.eqb x slash).
Qed.

Lemma split_sep_join (a b : string) :
  contains_sep a = false -> split_sep (join a b) = (a, b).
Proof.
  unfold join. induction a as [|x a IH]; simpl; auto.
  destruct (Ascii.eqb x slash); [discriminate|].
  intros H. specialize (IH H). simpl in IH. now rewrite IH.
Qed.

Lemma truthy_str_true (s : string) : s <> "" -> truthy_str s = true.
Proof. destruct s; simpl; congruence. Qed.

(** The first segment of a flat key. *)
Definition head_seg (p : string) : string :=
  if contains_sep p then fst (split_sep p) else p.

Lemma head_seg_join (a b : string) :
  contains_sep a = false -> head_seg (join a b) = a.
Proof.
  intros H. unfold head_seg. now rewrite contains_sep_join, split_sep_join.
Qed.

Lemma head_seg_plain (a : string) : contains_sep a = false -> head_seg a = a.
Proof. intros H. unfold head_seg. now rewrite H. Qed.

Section RoundTrip.

Context {elem : Type}.

Implicit Types (t : tree elem) (d : dict (tree elem)).

(** *** Induction on trees *)

Fixpoint tree_induction (P : tree elem -> Prop)
    (HL : forall x, P (Leaf x))
    (HD : forall d, Forall (fun kv => P (snd kv)) d -> P (Dict d))
    (t : tree elem) {struct t} : P t :=
  match t with
  | Leaf x => HL x
  | Dict d =>
      HD d
        ((fix each (l : list (string * tree elem))
            : Forall (fun kv => P (snd kv)) l :=
            match l with
            | [] => Forall_nil _
            | kv :: l' =>
                Forall_cons kv (tree_induction P HL HD (snd kv)) (each l')
            end) d)
  end.

(** *** The trees of the round-trip law *)

(** A key that can be a path segment: not empty and without separator. *)
Definition segment (k : string) : bool :=
  truthy_str k && negb (contains_sep k).

(** Every key of the tree is a segment. *)
Fixpoint segments_ok (t : tree elem) : bool :=
  match t with
  | Leaf _ => true
  | Dict d => forallb (fun kv => segment (fst kv) && segments_ok (snd kv)) d
  end.

(** No key of the tree contains the separator. *)
Fixpoint sep_free (t : tree elem) : bool :=
  match t with
  | Leaf _ => true
  | Dict d =>
      forallb (fun kv => negb (contains_sep (fst kv)) && sep_free (snd kv)) d
  end.

(** No sub-dict bound at the top level of the dict has the empty string as
    its key. The sub-dicts below the top level are flattened under a parent
    key that is not empty, whatever their own key is. *)
Definition top_dicts_named (d : dict (tree elem)) : bool :=
  forallb
    (fun kv =>
       match snd kv with
       | Dict _ => truthy_str (fst kv)
       | Leaf _ => true
       end) d.

(** The keys of every dict of the tree are pairwise distinct, as they are in
    any Python dict. *)
Fixpoint distinct (l : list string) : bool :=
  match l with
  | [] => true
  | k :: l' => negb (key_in k l') && distinct l'
  end.

Fixpoint unique_keys (t : tree elem) : bool :=
  match t with
  | Leaf _ => true
  | Dict d => distinct (keys d) && forallb (fun kv => unique_keys (snd kv)) d
  end.

Lemma distinct_NoDup (l : list string) : distinct l = true <-> NoDup l.
Proof.
  induction l as [|k l IH]; simpl.
  - split; [constructor | reflexivity].
  - rewrite andb_true_iff, negb_true_iff, IH. split.
    + intros [Hk Hnd]. constructor; auto.
      intros Hin. apply key_in_true in Hin. congruence.
    + intros H. inversion H as [|? ? Hk Hnd]. subst. split; auto.
      destruct (key_in k l) eqn:E; auto.
      apply key_in_true in E. contradiction.
Qed.

Lemma unique_keys_Dict d :
  unique_keys (Dict d) = true <->
  NoDup (keys d) /\ Forall (fun kv => unique_keys (snd kv) = true) d.
Proof.
  cbn [unique_keys].
  now rewrite andb_true_iff, distinct_NoDup, forallb_forall, Forall_forall.
Qed.

(** A value that [_flatten_dict] emits as one entry: a tensor or an empty
    dict. *)
Definition is_leafish (v : tree elem) : bool :=
  match v with
  | Leaf _ => true
  | Dict [] => true
  | Dict _ => false
  end.

Definition prefix (parent : string) (kv : string * tree elem)
  : string * tree elem :=
  (join parent (fst kv), snd kv).

(** The flat entries of a dict, with paths relative to it. *)
Fixpoint rel (t : tree elem) : list (string * tree elem) :=
  match t with
  | Leaf _ => []
  | Dict d =>
      flat_map
        (fun kv =>
           if is_leafish (snd kv) then [kv]
           else map (prefix (fst kv)) (rel (snd kv)))
        d
  end.

(** [_flatten_dict] with the inner loop written as a [flat_map]. *)
Lemma flatten_tree_Dict d parent sep :
  flatten_tree (Dict d) parent sep =
  dict_of_items
    (flat_map
       (fun kv =>
          let path :=
            if truthy_str parent
            then (parent ++ sep ++ fst kv)%string else fst kv in
          match snd kv with
          | Dict _ => flatten_tree (snd kv) path sep
          | Leaf _ => [(path, snd kv)]
          end) d
     ++ (if truthy_str parent && negb (nonempty d)
         then [(parent, Dict [])] else [])).
Proof.
  cbn [flatten_tree]. f_equal.
  match goal with
  | |- (if ?c then ?a ++ ?b else ?a) = ?r =>
      transitivity (a ++ if c then b else []);
        [destruct c; auto using app_nil_r|]
  end.
  f_equal. induction d as [|[k v] d IH]; simpl; auto.
  rewrite IH. destruct v; reflexivity.
Qed.

Lemma segments_ok_Dict d :
  segments_ok (Dict d) = true <->
  Forall (fun kv => segment (fst kv) = true /\ segments_ok (snd kv) = true) d.
Proof.
  cbn [segments_ok]. rewrite forallb_forall, Forall_forall.
  split; intros H kv Hin; specialize (H kv Hin).
  - now apply andb_true_iff in H.
  - now apply andb_true_iff.
Qed.

Lemma sep_free_Dict d :
  sep_free (Dict d) = true <->
  Forall
    (fun kv => contains_sep (fst kv) = false /\ sep_free (snd kv) = true) d.
Proof.
  cbn [sep_free]. rewrite forallb_forall, Forall_forall.
  split; intros H kv Hin; specialize (H kv Hin).
  - apply andb_true_iff in H. now rewrite negb_true_iff in H.
  - apply andb_true_iff. now rewrite negb_true_iff.
Qed.

Lemma segment_true k :
  segment k = true <-> k <> "" /\ contains_sep k = false.
Proof.
  unfold segment. rewrite andb_true_iff, negb_true_iff.
  destruct k; simpl; split; intros [H1 H2]; split; congruence.
Qed.

Lemma keys_map_prefix parent (l : list (string * tree elem)) :
  keys (map (prefix parent) l) = map (join parent) (keys l).
Proof. unfold keys. rewrite !map_map. reflexivity. Qed.

Lemma NoDup_map_join parent (l : list string) :
  NoDup l -> NoDup (map (join parent) l).
Proof.
  induction 1 as [|x l Hx Hnd IH]; simpl; constructor; auto.
  intros Hin. apply in_map_iff in Hin. destruct Hin as [y [Hy Hin]].
  apply join_inj in Hy. now subst.
Qed.

Lemma map_flat_map {A B C : Type} (f : B -> C) (g : A -> list B) l :
  map f (flat_map g l) = flat_map (fun x => map f (g x)) l.
Proof.
  induction l as [|x l IH]; simpl; auto. now rewrite map_app, IH.
Qed.

Lemma flat_map_Forall_ext {A B : Type} (f g : A -> list B) l :
  Forall (fun x => f x = g x) l -> flat_map f l = flat_map g l.
Proof.
  induction 1 as [|x l Hx _ IH]; simpl; auto. now rewrite Hx, IH.
Qed.

(** One entry of a dict contributes the flat entries under its key. *)
Definition block (kv : string * tree elem) : list (string * tree elem) :=
  if is_leafish (snd kv) then [kv]
  else map (prefix (fst kv)) (rel (snd kv)).

Lemma rel_Dict d : rel (Dict d) = flat_map block d.
Proof. reflexivity. Qed.

Lemma block_head kv p :
  contains_sep (fst kv) = false ->
  In p (keys (block kv)) -> head_seg p = fst kv.
Proof.
  intros Hk. unfold block. destruct (is_leafish (snd kv)).
  - simpl. intros [<- | []]. now apply head_seg_plain.
  - rewrite keys_map_prefix. intros Hin. apply in_map_iff in Hin.
    destruct Hin as [q [<- _]]. now apply head_seg_join.
Qed.

(** Every flat key starts with a key of the dict it comes from. *)
Lemma rel_head d p :
  sep_free (Dict d) = true ->
  In p (keys (rel (Dict d))) -> In (head_seg p) (keys d).
Proof.
  rewrite sep_free_Dict, rel_Dict. induction 1 as [|kv d [Hk _] _ IH].
  - simpl. tauto.
  - simpl. unfold keys at 1. rewrite map_app. intros Hin.
    apply in_app_or in Hin. destruct Hin as [Hin | Hin].
    + left. symmetry. apply block_head; auto.
    + right. now apply IH.
Qed.

(** The flat keys of a tree are pairwise distinct. *)
Lemma rel_NoDup t :
  sep_free t = true -> unique_keys t = true -> NoDup (keys (rel t)).
Proof.
  induction t as [x | d IHd] using tree_induction; intros Hseg Hun.
  - constructor.
  - rewrite rel_Dict. apply unique_keys_Dict in Hun. destruct Hun as [Hnd Hun].
    pose proof Hseg as Hseg'. apply sep_free_Dict in Hseg'.
    clear Hseg.
    induction d as [|kv d IH]; simpl; [constructor|].
    inversion IHd as [|? ? Hkv IHd']. inversion Hun as [|? ? Ukv Hun'].
    inversion Hseg' as [|? ? [Hk Sk] Hseg'']. inversion Hnd as [|? ? Hnotin Hnd'].
    subst. unfold keys. rewrite map_app. apply NoDup_app.
    + fold (keys (block kv)). unfold block. destruct (is_leafish (snd kv)).
      * simpl. constructor; [tauto | constructor].
      * rewrite keys_map_prefix. apply NoDup_map_join. auto.
    + apply IH; auto.
    + intros p Hp Hq. apply Hnotin.
      rewrite <- (block_head kv p) by tauto.
      apply rel_head; auto. now apply sep_free_Dict.
Qed.

(** Flattening under a parent key prefixes the relative flat entries; with
    no parent key, the sub-dicts at the top need a key of their own. *)
Lemma flatten_tree_rel t :
  sep_free t = true -> unique_keys t = true ->
  forall parent,
    (truthy_str parent = false ->
     match t with
     | Leaf _ => True
     | Dict d => top_dicts_named d = true
     end) ->
    flatten_tree t parent "/" =
    match t with
    | Leaf _ => []
    | Dict d =>
        if truthy_str parent
        then if nonempty d then map (prefix parent) (rel t)
             else [(parent, Dict [])]
        else rel t
    end.
Proof.
  induction t as [x | d IHd] using tree_induction;
    intros Hseg Hun parent Htop.
  - reflexivity.
  - rewrite flatten_tree_Dict.
    pose proof (rel_NoDup (Dict d) Hseg Hun) as Hnd.
    apply unique_keys_Dict in Hun. destruct Hun as [_ Hun].
    pose proof Hseg as Hseg'. apply sep_free_Dict in Hseg'.
    unfold top_dicts_named in Htop. rewrite forallb_forall in Htop.
    assert (Hbody :
      flat_map
        (fun kv =>
           let path :=
             if truthy_str parent
             then (parent ++ "/" ++ fst kv)%string else fst kv in
           match snd kv with
           | Dict _ => flatten_tree (snd kv) path "/"
           | Leaf _ => [(path, snd kv)]
           end) d
      = flat_map
          (fun kv =>
             if truthy_str parent then map (prefix parent) (block kv)
             else block kv) d).
    { apply flat_map_Forall_ext.
      rewrite Forall_forall in *. intros [k v] Hin.
      specialize (IHd _ Hin). specialize (Hun _ Hin).
      destruct (Hseg' _ Hin) as [Hk Sv]. cbn [fst snd] in *.
      unfold block. cbn [fst snd].
      destruct v as [x | d'].
      - cbn [is_leafish]. destruct (truthy_str parent); reflexivity.
      - assert (Hpath : truthy_str
                  (if truthy_str parent
                   then (parent ++ "/" ++ k)%string else k) = true).
        { destruct (truthy_str parent).
          - apply (join_truthy parent k).
          - apply (Htop eq_refl _ Hin). }
        rewrite (IHd Sv Hun) by (rewrite Hpath; discriminate).
        rewrite Hpath. destruct d' as [|kv' d'].
        + cbn [nonempty is_leafish]. destruct (truthy_str parent); reflexivity.
        + cbn [nonempty is_leafish]. destruct (truthy_str parent).
          * rewrite map_map. apply map_ext. intros [k0 v0].
            unfold prefix. cbn [fst snd]. f_equal.
            apply (join_assoc parent k k0).
          * reflexivity. }
    rewrite Hbody. destruct (truthy_str parent).
    + rewrite <- map_flat_map, <- rel_Dict.
      destruct d as [|kv d]; cbn [nonempty negb andb].
      * reflexivity.
      * rewrite app_nil_r. apply dict_of_items_NoDup.
        rewrite keys_map_prefix. now apply NoDup_map_join.
    + cbn [andb]. rewrite app_nil_r.
      replace (flat_map (fun kv => block kv) d) with (rel (Dict d))
        by (rewrite rel_Dict; apply flat_map_ext; reflexivity).
      now apply dict_of_items_NoDup.
Qed.

(** C3, first half: [_flatten_dict] called as [inspect_params] calls it
    lists the relative flat entries. *)
Lemma flatten_dict_rel d :
  sep_free (Dict d) = true -> unique_keys (Dict d) = true ->
  top_dicts_named d = true ->
  _flatten_dict d "" "/" = rel (Dict d).
Proof.
  intros Hseg Hun Htop. unfold _flatten_dict.
  now rewrite (flatten_tree_rel (Dict d) Hseg Hun "") by auto.
Qed.

(** *** recover_tree on the flat entries of a tree *)

(** The entries that are emitted as they are, and the sub-dicts that are
    flattened further. *)
Definition leafish d : dict (tree elem) :=
  filter (fun kv => is_leafish (snd kv)) d.

Definition groups d : dict (list (string * tree elem)) :=
  flat_map
    (fun kv => if is_leafish (snd kv) then [] else [(fst kv, rel (snd kv))])
    d.

(** The tree that [recover_tree] builds from the flat entries of [t]: in
    every dict the tensors and empty dicts come first, then the sub-dicts. *)
Fixpoint reorder (t : tree elem) : tree elem :=
  match t with
  | Leaf x => Leaf x
  | Dict d =>
      Dict
        (filter (fun kv => is_leafish (snd kv)) d ++
         flat_map
           (fun kv =>
              if is_leafish (snd kv) then []
              else [(fst kv, reorder (snd kv))])
           d)
  end.

Definition subdicts d : dict (tree elem) :=
  flat_map
    (fun kv => if is_leafish (snd kv) then [] else [(fst kv, reorder (snd kv))])
    d.

Definition children (t : tree elem) : dict (tree elem) :=
  match t with
  | Leaf _ => []
  | Dict d => d
  end.

Lemma reorder_Dict d : reorder (Dict d) = Dict (leafish d ++ subdicts d).
Proof. reflexivity. Qed.

Lemma combine_fst_snd {A B : Type} (l : list (A * B)) :
  combine (map fst l) (map snd l) = l.
Proof.
  induction l as [|[a b] l IH]; simpl; auto. now rewrite IH.
Qed.

Lemma keys_app {V : Type} (a b : dict V) : keys (a ++ b) = keys a ++ keys b.
Proof. unfold keys. apply map_app. Qed.

Lemma dict_get_last {V : Type} (s : dict V) k (v : V) :
  ~ In k (keys s) -> dict_get (s ++ [(k, v)]) k = Some v.
Proof.
  intros Hk. rewrite <- dict_set_fresh by auto. apply dict_get_set_eq.
Qed.

Lemma dict_set_last {V : Type} (s : dict V) k (v v' : V) :
  ~ In k (keys s) -> dict_set (s ++ [(k, v)]) k v' = s ++ [(k, v')].
Proof.
  intros Hk. rewrite <- !dict_set_fresh by auto. apply dict_set_set.
Qed.

Lemma group_append_new (s : dict (list (string * tree elem))) k x :
  ~ In k (keys s) -> group_append s k x = s ++ [(k, [x])].
Proof.
  intros Hk. unfold group_append.
  apply dict_get_None in Hk. rewrite Hk.
  apply dict_set_fresh. now apply dict_get_None.
Qed.

Lemma group_append_last (s : dict (list (string * tree elem))) k l x :
  ~ In k (keys s) ->
  group_append (s ++ [(k, l)]) k x = s ++ [(k, l ++ [x])].
Proof.
  intros Hk. unfold group_append.
  rewrite dict_get_last by auto. now apply dict_set_last.
Qed.

Lemma scan_key_prefixed k T S (kv : string * tree elem) :
  contains_sep k = false ->
  scan_key (T, S) (prefix k kv) = (T, group_append S k kv).
Proof.
  intros Hk. destruct kv as [p v]. unfold prefix, scan_key. cbn [fst snd].
  now rewrite contains_sep_join, split_sep_join.
Qed.

Lemma scan_key_plain k T S (v : tree elem) :
  contains_sep k = false ->
  scan_key (T, S) (k, v) = (dict_set T k v, S).
Proof. intros Hk. unfold scan_key. now rewrite Hk. Qed.

(** Entries prefixed with [k] all join the group of [k]. *)
Lemma scan_prefixed k T S l0 l :
  contains_sep k = false -> ~ In k (keys S) ->
  fold_left scan_key (map (prefix k) l) (T, S ++ [(k, l0)]) =
  (T, S ++ [(k, l0 ++ l)]).
Proof.
  intros Hk HS. revert l0.
  induction l as [|[p v] l IH]; intros l0; cbn [map fold_left].
  - now rewrite app_nil_r.
  - rewrite scan_key_prefixed, group_append_last by auto. rewrite IH.
    now rewrite <- app_assoc.
Qed.

Lemma rel_nonempty t : is_leafish t = false -> rel t <> [].
Proof.
  induction t as [x | d IHd] using tree_induction; [discriminate|].
  destruct d as [|kv d]; [discriminate|]. intros _.
  rewrite rel_Dict. simpl. inversion IHd as [|? ? Hkv _]. subst.
  unfold block. destruct (is_leafish (snd kv)) eqn:E.
  - discriminate.
  - specialize (Hkv eq_refl). destruct (rel (snd kv)); [congruence|].
    discriminate.
Qed.

(** The first loop on the entries of one binding of the dict. *)
Lemma scan_block kv T S :
  contains_sep (fst kv) = false ->
  ~ In (fst kv) (keys T) -> ~ In (fst kv) (keys S) ->
  fold_left scan_key (block kv) (T, S) =
  (T ++ (if is_leafish (snd kv) then [kv] else []),
   S ++ (if is_leafish (snd kv) then [] else [(fst kv, rel (snd kv))])).
Proof.
  intros Hk HT HS.
  unfold block. destruct (is_leafish (snd kv)) eqn:E.
  - destruct kv as [k v]. cbn [fst snd fold_left] in *.
    rewrite scan_key_plain by auto.
    now rewrite dict_set_fresh, app_nil_r.
  - pose proof (rel_nonempty _ E) as Hne.
    destruct (rel (snd kv)) as [|x l]; [congruence|].
    rewrite app_nil_r. cbn [map fold_left].
    rewrite scan_key_prefixed, group_append_new by auto.
    now rewrite scan_prefixed.
Qed.

Lemma keys_leafish d k : In k (keys (leafish d)) -> In k (keys d).
Proof.
  unfold keys, leafish. intros H. apply in_map_iff in H.
  destruct H as [kv [<- H]]. apply filter_In in H. apply in_map. tauto.
Qed.

Lemma keys_groups d k : In k (keys (groups d)) -> In k (keys d).
Proof.
  unfold keys, groups. intros H. apply in_map_iff in H.
  destruct H as [g [<- H]]. apply in_flat_map in H.
  destruct H as [kv [Hin H]]. destruct (is_leafish (snd kv)); [easy|].
  destruct H as [<- | []]. cbn [fst]. now apply (in_map fst).
Qed.

Lemma keys_subdicts d k : In k (keys (subdicts d)) -> In k (keys d).
Proof.
  unfold keys, subdicts. intros H. apply in_map_iff in H.
  destruct H as [g [<- H]]. apply in_flat_map in H.
  destruct H as [kv [Hin H]]. destruct (is_leafish (snd kv)); [easy|].
  destruct H as [<- | []]. cbn [fst]. now apply (in_map fst).
Qed.

(** The first loop on all the flat entries of a dict. *)
Lemma scan_rel d T S :
  sep_free (Dict d) = true -> NoDup (keys d) ->
  (forall k, In k (keys d) -> ~ In k (keys T) /\ ~ In k (keys S)) ->
  fold_left scan_key (rel (Dict d)) (T, S) =
  (T ++ leafish d, S ++ groups d).
Proof.
  rewrite sep_free_Dict, rel_Dict. intros Hseg. revert T S.
  induction Hseg as [|kv d [Hk _] _ IH]; intros T S Hnd Hfresh.
  - simpl. now rewrite !app_nil_r.
  - inversion Hnd as [|? ? Hnotin Hnd']. subst.
    simpl flat_map. rewrite fold_left_app.
    destruct (Hfresh (fst kv)) as [HT HS]; [now left|].
    rewrite scan_block by auto. rewrite IH; auto.
    + unfold leafish, groups. simpl.
      destruct (is_leafish (snd kv)); simpl;
        now rewrite <- !app_assoc, ?app_nil_r.
    + intros k Hin. destruct (Hfresh k) as [HT' HS']; [now right|].
      rewrite !keys_app. split; intros H; apply in_app_or in H;
        destruct H as [H|H]; try contradiction;
        destruct (is_leafish (snd kv)); simpl in H;
        try contradiction; destruct H as [<- | []]; contradiction.
Qed.

(** The second loop, given what the recursive calls return. *)
Lemma build_subtrees fuel d T :
  NoDup (keys d) ->
  (forall kv, In kv d -> is_leafish (snd kv) = false ->
              ~ In (fst kv) (keys T)) ->
  Forall
    (fun kv =>
       is_leafish (snd kv) = false ->
       recover_tree_fuel fuel (map fst (rel (snd kv)))
         (map snd (rel (snd kv)))
       = Some (children (reorder (snd kv)))) d ->
  fold_left
    (fun acc (g : string * list (string * tree elem)) =>
       match acc with
       | None => None
       | Some tree =>
           match recover_tree_fuel fuel (map fst (snd g)) (map snd (snd g)) with
           | None => None
           | Some sub => Some (dict_set tree (fst g) (Dict sub))
           end
       end)
    (groups d) (Some T)
  = Some (T ++ subdicts d).
Proof.
  intros Hnd Hfresh Hrec. revert T Hnd Hfresh.
  induction Hrec as [|kv d Hkv _ IH]; intros T Hnd Hfresh.
  - simpl. now rewrite app_nil_r.
  - inversion Hnd as [|? ? Hnotin Hnd']. subst.
    unfold groups, subdicts. simpl flat_map.
    destruct (is_leafish (snd kv)) eqn:E.
    + simpl app. apply IH; auto. intros kv' Hin. apply Hfresh. now right.
    + cbn [app fold_left fst snd]. rewrite (Hkv eq_refl).
      rewrite dict_set_fresh by (apply Hfresh; [now left | exact E]).
      fold (groups d). rewrite IH; auto.
      * fold (subdicts d). rewrite <- app_assoc. do 2 f_equal.
        simpl. f_equal. f_equal.
        destruct (snd kv) as [x|d']; [discriminate|reflexivity].
      * intros kv' Hin E'. rewrite keys_app. intros H.
        apply in_app_or in H. destruct H as [H|H].
        -- apply (Hfresh kv'); auto. now right.
        -- simpl in H. destruct H as [H | []]. apply Hnotin.
           rewrite H. now apply (in_map fst).
Qed.

Lemma NoDup_keys_inj {V : Type} (d : dict V) (kv kv' : string * V) :
  NoDup (keys d) -> In kv d -> In kv' d -> fst kv = fst kv' -> kv = kv'.
Proof.
  intros Hnd Hin Hin' E.
  destruct kv as [k v], kv' as [k' v']. cbn [fst] in E. subst k'.
  pose proof (dict_get_NoDup d k v Hnd Hin) as H1.
  pose proof (dict_get_NoDup d k v' Hnd Hin') as H2.
  congruence.
Qed.

Lemma rel_child_key d kv q :
  In kv d -> is_leafish (snd kv) = false ->
  In q (keys (rel (snd kv))) ->
  In (join (fst kv) q) (keys (rel (Dict d))).
Proof.
  intros Hin E Hq. unfold keys in *. apply in_map_iff in Hq.
  destruct Hq as [x [<- Hx]]. apply in_map_iff.
  exists (prefix (fst kv) x). split; [reflexivity|].
  rewrite rel_Dict. apply in_flat_map. exists kv. split; auto.
  unfold block. rewrite E. now apply in_map.
Qed.

(** [recover_tree] on the flat entries of a tree, with fuel for its longest
    key, rebuilds the tree up to the order of the bindings. *)
Lemma recover_rel t :
  sep_free t = true -> unique_keys t = true ->
  forall n,
    (forall p, In p (keys (rel t)) -> String.length p <= n) ->
    recover_tree_fuel (S n) (map fst (rel t)) (map snd (rel t))
    = Some (children (reorder t)).
Proof.
  induction t as [x | d IHd] using tree_induction; intros Hseg Hun n Hlen.
  - reflexivity.
  - cbn [recover_tree_fuel]. rewrite combine_fst_snd.
    pose proof Hun as Hun'. apply unique_keys_Dict in Hun'.
    destruct Hun' as [Hnd Hun'].
    pose proof Hseg as Hseg'. apply sep_free_Dict in Hseg'.
    match goal with
    | |- context [fold_left scan_key ?l ?i] =>
        set (st := fold_left scan_key l i)
    end.
    assert (Hst : st = (leafish d, groups d)).
    { subst st. apply (scan_rel d [] []); auto. }
    rewrite Hst. cbn [fst snd]. rewrite reorder_Dict. cbn [children].
    apply build_subtrees; auto.
    + intros kv Hin E Hk. unfold keys, leafish in Hk.
      apply in_map_iff in Hk. destruct Hk as [kv' [Hfst Hin']].
      apply filter_In in Hin'. destruct Hin' as [Hin' E'].
      assert (kv' = kv) by (apply (NoDup_keys_inj d); auto).
      subst. congruence.
    + rewrite Forall_forall in *. intros kv Hin E.
      destruct (Hseg' kv Hin) as [Hk Sv].
      destruct n as [|n'].
      * exfalso. pose proof (rel_nonempty _ E) as Hne.
        destruct (rel (snd kv)) as [|x l] eqn:Er; [congruence|].
        assert (Hq : In (fst x) (keys (rel (snd kv)))).
        { rewrite Er. now left. }
        apply (rel_child_key d kv _ Hin E) in Hq.
        apply Hlen in Hq. rewrite join_length in Hq. lia.
      * apply (IHd kv Hin Sv (Hun' kv Hin)).
        intros q Hq. apply (rel_child_key d kv _ Hin E) in Hq.
        apply Hlen in Hq. rewrite join_length in Hq. lia.
Qed.

Lemma length_le_max (l : list string) (p : string) :
  In p l -> String.length p <= fold_right Nat.max 0 (map String.length l).
Proof.
  induction l as [|x l IH]; simpl; [tauto|].
  intros [<- | Hin]; [lia|]. specialize (IH Hin). lia.
Qed.

(** C3, second half: [recover_tree], with the fuel it is given, rebuilds a
    tree from its flat entries. *)
Lemma unflatten_rel t :
  sep_free t = true -> unique_keys t = true ->
  unflatten (rel t) = Some (children (reorder t)).
Proof.
  intros Hseg Hun. unfold unflatten, recover_tree, key_bound.
  apply recover_rel; auto. intros p Hp. now apply length_le_max.
Qed.

(** *** The rebuilt tree is equal to the original one *)

Lemma tree_eq_Dict (da db : dict (tree elem)) :
  tree_eq (Dict da) (Dict db) <->
  List.length da = List.length db /\
  Forall (fun kv => exists v', dict_get db (fst kv) = Some v' /\
                               tree_eq (snd kv) v') da.
Proof.
  cbn [tree_eq]. apply and_iff_compat_l.
  induction da as [|[k v] da IH].
  - split; auto.
  - split.
    + intros [H1 H2]. constructor; auto. now apply IH.
    + intros H. inversion H. subst. split; auto. now apply IH.
Qed.

Lemma tree_eq_leafish t : is_leafish t = true -> tree_eq t t.
Proof.
  destruct t as [x|[|kv d]]; simpl; auto; discriminate.
Qed.

Lemma length_reorder d :
  List.length (leafish d ++ subdicts d) = List.length d.
Proof.
  unfold leafish, subdicts. induction d as [|kv d IH]; simpl; auto.
  destruct (is_leafish (snd kv)); simpl.
  - now rewrite IH.
  - rewrite length_app in *. simpl. lia.
Qed.

Lemma keys_reorder d : Permutation (keys d) (keys (leafish d ++ subdicts d)).
Proof.
  unfold leafish, subdicts. induction d as [|kv d IH]; simpl; auto.
  destruct (is_leafish (snd kv)); simpl.
  - now constructor.
  - rewrite keys_app in *. simpl. now apply Permutation_cons_app.
Qed.

(** Reordering the bindings of the dicts of a tree gives an equal tree. *)
Lemma reorder_eq t :
  unique_keys t = true -> tree_eq (reorder t) t /\ tree_eq t (reorder t).
Proof.
  induction t as [x | d IHd] using tree_induction; intros Hun.
  - simpl. auto.
  - apply unique_keys_Dict in Hun. destruct Hun as [Hnd Hun].
    rewrite reorder_Dict, !tree_eq_Dict, length_reorder.
    rewrite Forall_forall in IHd, Hun.
    assert (Hnd' : NoDup (keys (leafish d ++ subdicts d))).
    { eapply Permutation_NoDup; [apply keys_reorder | exact Hnd]. }
    repeat split; auto.
    + apply Forall_forall. intros g Hg. apply in_app_or in Hg.
      destruct Hg as [Hg | Hg].
      * apply filter_In in Hg. destruct Hg as [Hin E].
        exists (snd g). split; [|now apply tree_eq_leafish].
        destruct g as [k v]. now apply dict_get_NoDup.
      * apply in_flat_map in Hg. destruct Hg as [kv [Hin Hg]].
        destruct (is_leafish (snd kv)); [easy|].
        destruct Hg as [<- | []]. cbn [fst snd].
        exists (snd kv). split.
        -- destruct kv as [k v]. now apply dict_get_NoDup.
        -- now apply IHd; auto.
    + apply Forall_forall. intros kv Hin.
      destruct (is_leafish (snd kv)) eqn:E.
      * exists (snd kv). split; [|now apply tree_eq_leafish].
        destruct kv as [k v]. apply dict_get_NoDup; auto.
        apply in_or_app. left. apply filter_In. auto.
      * exists (reorder (snd kv)). split; [|now apply IHd; auto].
        apply dict_get_NoDup; auto.
        apply in_or_app. right. apply in_flat_map. exists kv.
        split; auto. rewrite E. now left.
Qed.

(** *** The round-trip law *)

(** No key of the tree is the empty string. *)
Fixpoint keys_nonempty (t : tree elem) : bool :=
  match t with
  | Leaf _ => true
  | Dict d =>
      forallb (fun kv => truthy_str (fst kv) && keys_nonempty (snd kv)) d
  end.

Lemma segments_ok_iff t :
  sep_free t = true -> keys_nonempty t = true -> segments_ok t = true.
Proof.
  induction t as [x | d IHd] using tree_induction; auto.
  cbn [sep_free keys_nonempty segments_ok].
  rewrite !forallb_forall. rewrite Forall_forall in IHd.
  intros Hs Hn kv Hin. specialize (Hs kv Hin). specialize (Hn kv Hin).
  apply andb_true_iff in Hs. apply andb_true_iff in Hn.
  unfold segment. rewrite IHd by tauto.
  destruct Hs as [-> _]. destruct Hn as [-> _]. reflexivity.
Qed.

Lemma segments_ok_sep_free t : segments_ok t = true -> sep_free t = true.
Proof.
  induction t as [x | d IHd] using tree_induction; auto.
  cbn [sep_free segments_ok].
  rewrite !forallb_forall. rewrite Forall_forall in IHd.
  intros Hs kv Hin. specialize (Hs kv Hin).
  apply andb_true_iff in Hs. destruct Hs as [Hk Hv].
  apply segment_true in Hk. destruct Hk as [_ ->].
  now rewrite IHd.
Qed.

Lemma segments_ok_named d :
  segments_ok (Dict d) = true -> top_dicts_named d = true.
Proof.
  cbn [segments_ok]. unfold top_dicts_named. rewrite !forallb_forall.
  intros Hs kv Hin. specialize (Hs kv Hin).
  apply andb_true_iff in Hs. destruct Hs as [Hk _].
  unfold segment in Hk. apply andb_true_iff in Hk.
  destruct (snd kv); tauto.
Qed.

Lemma keys_nonempty_named d :
  keys_nonempty (Dict d) = true -> top_dicts_named d = true.
Proof.
  cbn [keys_nonempty]. unfold top_dicts_named. rewrite !forallb_forall.
  intros Hs kv Hin. specialize (Hs kv Hin).
  apply andb_true_iff in Hs. destruct (snd kv); tauto.
Qed.

(** The paths of the leaves and empty sub-trees below a key, obtained by
    joining the keys with the separator. *)
Fixpoint paths_under (p : string) (t : tree elem) : list string :=
  match t with
  | Leaf _ => [p]
  | Dict d =>
      if nonempty d
      then flat_map (fun kv => paths_under (join p (fst kv)) (snd kv)) d
      else [p]
  end.

Definition joined_paths d : list string :=
  flat_map (fun kv => paths_under (fst kv) (snd kv)) d.

(** C3, as the code has it: [unflatten(flatten(t)) == t] for every tree
    whose dicts have distinct keys, whose keys are strings without
    separator, and whose top level binds no sub-dict to the empty string;
    empty sub-trees are included, and so are empty keys below the top level
    and an empty key bound to a tensor at the top level. An empty dict
    flattened under a non-empty parent key is emitted as one entry. *)
Theorem C3_round_trip_named_subtrees d :
  unique_keys (Dict d) = true ->
  sep_free (Dict d) = true ->
  top_dicts_named d = true ->
  (exists u,
      unflatten (_flatten_dict d "" "/") = Some u /\
      tree_eq (Dict u) (Dict d) /\ tree_eq (Dict d) (Dict u)) /\
  (forall parent,
      parent <> "" ->
      _flatten_dict (elem := elem) [] parent "/" = [(parent, Dict [])]).
Proof.
  intros Hun Hsep Htop. split.
  - exists (children (reorder (Dict d))). split.
    + rewrite flatten_dict_rel by auto. now apply unflatten_rel.
    + rewrite reorder_Dict. cbn [children]. rewrite <- reorder_Dict.
      now apply reorder_eq.
  - intros parent Hp. unfold _flatten_dict. cbn [flatten_tree].
    rewrite truthy_str_true by auto. reflexivity.
Qed.

End RoundTrip.

(** ** recover_tree always returns *)

Section RecoverTotal.

Context {elem : Type}.

Lemma split_sep_shorter (k : string) :
  contains_sep k = true ->
  String.length (snd (split_sep k)) < String.length k.
Proof.
  induction k as [|c k IH]; simpl; [discriminate|].
  destruct (Ascii.eqb c slash); simpl; [lia|].
  intros H. specialize (IH H). destruct (split_sep k). simpl in *. lia.
Qed.

Lemma In_dict_set {V : Type} (d : dict V) (k g : string) (v w : V) :
  In (g, w) (dict_set d k v) -> (g = k /\ w = v) \/ In (g, w) d.
Proof.
  induction d as [|[k0 v0] d IH]; simpl.
  - intros [H | []]. inversion H. auto.
  - destruct (String.eqb k0 k) eqn:E; simpl.
    + apply String.eqb_eq in E. subst k0.
      intros [H | H]; [inversion H|]; auto.
    + intros [H | H]; auto. destruct (IH H); auto.
Qed.

(** Every key stored in a group is at most [n] long. *)
Definition groups_bounded (n : nat)
    (sub_trees : dict (list (string * tree elem))) : Prop :=
  forall g items kv,
    In (g, items) sub_trees -> In kv items -> String.length (fst kv) <= n.

Lemma group_append_bounded n sub_trees k (x : string * tree elem) :
  groups_bounded n sub_trees -> String.length (fst x) <= n ->
  groups_bounded n (group_append sub_trees k x).
Proof.
  intros Hb Hx g items kv Hg Hkv. unfold group_append in Hg.
  destruct (dict_get sub_trees k) as [l|] eqn:E;
    apply In_dict_set in Hg; destruct Hg as [[-> ->] | Hg];
    try (now apply (Hb g items kv)).
  - apply in_app_or in Hkv. destruct Hkv as [Hkv | [<- | []]]; auto.
    apply dict_get_In in E. now apply (Hb k l kv).
  - destruct Hkv as [<- | []]. auto.
Qed.

Lemma scan_bounded n (l : list (string * tree elem)) st :
  groups_bounded n (snd st) ->
  (forall kv, In kv l -> String.length (fst kv) <= S n) ->
  groups_bounded n (snd (fold_left scan_key l st)).
Proof.
  revert st. induction l as [|[k v] l IH]; intros st Hb Hl; simpl; auto.
  apply IH; [|intros kv Hin; apply Hl; now right].
  unfold scan_key. destruct (contains_sep k) eqn:E; auto.
  pose proof (split_sep_shorter k E) as Hlt.
  destruct (split_sep k) as [k_left k_right]. cbn [fst snd] in *.
  apply group_append_bounded; auto. cbn [fst].
  specialize (Hl (k, v) (or_introl eq_refl)). cbn [fst] in Hl. lia.
Qed.

Lemma scan_no_sep (l : list (string * tree elem)) st :
  (forall kv, In kv l -> contains_sep (fst kv) = false) ->
  snd (fold_left scan_key l st) = snd st.
Proof.
  revert st. induction l as [|[k v] l IH]; intros st Hl; simpl; auto.
  rewrite IH by (intros kv Hin; apply Hl; now right).
  pose proof (Hl (k, v) (or_introl eq_refl)) as E. cbn [fst] in E.
  unfold scan_key. now rewrite E.
Qed.

Lemma build_total fuel (G : dict (list (string * tree elem))) T :
  (forall g, In g G ->
             exists sub,
               recover_tree_fuel fuel (map fst (snd g)) (map snd (snd g))
               = Some sub) ->
  exists t,
    fold_left
      (fun acc (g : string * list (string * tree elem)) =>
         match acc with
         | None => None
         | Some tree =>
             match recover_tree_fuel fuel (map fst (snd g)) (map snd (snd g))
             with
             | None => None
             | Some sub => Some (dict_set tree (fst g) (Dict sub))
             end
         end)
      G (Some T) = Some t.
Proof.
  revert T. induction G as [|g G IH]; intros T HG; simpl; eauto.
  destruct (HG g (or_introl eq_refl)) as [sub ->].
  apply IH. intros g' Hin. apply HG. now right.
Qed.

Lemma recover_tree_fuel_S fuel (keys : list string)
    (values : list (tree elem)) :
  recover_tree_fuel (S fuel) keys values =
  let st := fold_left scan_key (combine keys values) ([], []) in
  fold_left
    (fun acc (g : string * list (string * tree elem)) =>
       match acc with
       | None => None
       | Some tree =>
           match recover_tree_fuel fuel (map fst (snd g)) (map snd (snd g))
           with
           | None => None
           | Some sub => Some (dict_set tree (fst g) (Dict sub))
           end
       end)
    (snd st) (Some (fst st)).
Proof. reflexivity. Qed.

(** With fuel for its longest key, [recover_tree_fuel] returns a tree. *)
Lemma recover_tree_fuel_total n (keys : list string)
    (values : list (tree elem)) :
  (forall k, In k keys -> String.length k <= n) ->
  exists t, recover_tree_fuel (S n) keys values = Some t.
Proof.
  revert keys values. induction n as [|n IH]; intros keys values Hlen;
    rewrite recover_tree_fuel_S; cbv zeta; apply build_total; intros g Hg.
  - rewrite scan_no_sep in Hg; [destruct Hg|].
    intros [k v] Hin. apply in_combine_l in Hin. apply Hlen in Hin.
    cbn [fst]. destruct k; [reflexivity | simpl in Hin; lia].
  - apply IH. intros k Hk. apply in_map_iff in Hk.
    destruct Hk as [kv [<- Hkv]]. destruct g as [g items].
    eapply (scan_bounded n); [| |exact Hg|exact Hkv].
    + intros ? ? ? [].
    + intros [k v] Hin. apply in_combine_l in Hin. cbn [fst]. auto.
Qed.

(** [recover_tree] returns on every list of keys and values. *)
Lemma recover_tree_total (keys : list string) (values : list (tree elem)) :
  exists t, recover_tree keys values = Some t.
Proof.
  unfold recover_tree, key_bound. apply recover_tree_fuel_total.
  intros k Hk. now apply length_le_max.
Qed.

End RecoverTotal.

(** * Concrete runs

    The theorems above are applied here to small checkpoints whose tensors
    hold integers. *)

Local Open Scope Z_scope.

(** A nearest-neighbour resampling of a grid of shape (b, b, c) to
    (a, a, c), standing in for [scipy.ndimage.zoom] in the runs below. *)
Definition zoom_nearest (g : tensor Z) (a b : nat) : result (tensor Z) :=
  let c := nth 2 (shape g) 0%nat in
  Ok (mkTensor [a; a; c]
        (flat_map
           (fun i =>
              flat_map
                (fun j =>
                   map (fun ch =>
                          nth (((i * b / a) * b + j * b / a) * c + ch)%nat
                            (data g) 0)
                     (seq 0 c))
                (seq 0 a))
           (seq 0 a))).

(** The runs below have token counts below 2^52, where the rounding of the
    float root plays no part. *)
Definition sqrt_exact : Z -> nat := fun _ => 0%nat.

Lemma length_flat_map_const {A B : Type} (f : A -> list B) (n : nat) l :
  (forall x, List.length (f x) = n) ->
  List.length (flat_map f l) = (List.length l * n)%nat.
Proof.
  intros Hf. induction l as [|x l IH]; simpl; auto.
  now rewrite length_app, Hf, IH.
Qed.

Lemma zoom_nearest_shape (g : tensor Z) (a b c : nat) :
  shape g = [b; b; c] -> (0 < a)%nat -> (0 < b)%nat -> (0 < c)%nat ->
  exists z, zoom_nearest g a b = Ok z /\ shape z = [a; a; c].
Proof.
  intros Hs _ _ _. eexists. split; [reflexivity|]. simpl. now rewrite Hs.
Defined.

Lemma zoom_nearest_wf (g : tensor Z) (a b : nat) (z : tensor Z) :
  tensor_wf g -> zoom_nearest g a b = Ok z -> tensor_wf z.
Proof.
  intros _ Hz. unfold zoom_nearest in Hz. injection Hz as <-.
  unfold tensor_wf. cbn [shape data fold_right].
  rewrite (length_flat_map_const _ (a * nth 2 (shape g) 0%nat)), length_seq.
  - lia.
  - intros i.
    rewrite (length_flat_map_const _ (nth 2 (shape g) 0%nat)), length_seq.
    + reflexivity.
    + intros j. now rewrite length_map, length_seq.
Qed.

Lemma zoom_nearest_grid (g : tensor Z) (a b c : nat) :
  shape g = [b; b; c] -> tensor_wf g -> (0 < a)%nat -> (0 < b)%nat ->
  exists z,
    zoom_nearest g a b = Ok z /\ shape z = [a; a; c] /\ tensor_wf z.
Proof.
  intros Hs Hwf _ _. eexists. split; [reflexivity|]. split.
  - simpl. now rewrite Hs.
  - now apply (zoom_nearest_wf g a b).
Qed.

(** Five tokens of one channel. *)
Definition posemb5 : tensor Z := mkTensor [1; 5; 1]%nat [10; 11; 12; 13; 14].

(** C2, as stated, fails with two special tokens: the grid segment taken by
    the code starts at token 1, not at token 2, so token 1 both precedes
    index [token_len] and is part of the grid that is resampled. *)
Lemma C2_grid_keeps_token_1 :
  split_tokens 2 posemb5 =
    Ok (mkTensor [1; 2; 1]%nat [10; 10], mkTensor [4; 1]%nat [11; 12; 13; 14]) /\
  split_tokens_spec 2 posemb5 =
    Ok (mkTensor [1; 2; 1]%nat [10; 10], mkTensor [3; 1]%nat [12; 13; 14]) /\
  split_tokens 2 posemb5 <> split_tokens_spec 2 posemb5 /\
  token 1 0 (mkTensor [4; 1]%nat [11; 12; 13; 14]) = token 1 1 posemb5.
Proof.
  repeat split; try reflexivity. discriminate.
Qed.

Lemma C2_split_run :
  shape posemb5 = [1; 5; 1]%nat /\
  tensor_wf posemb5 /\
  2 > 0 /\
  exists tok grid,
    split_tokens 2 posemb5 = Ok (tok, grid) /\
    shape tok = [1; Z.to_nat 2; 1]%nat /\
    (forall j, (j < Z.to_nat 2)%nat -> token 1 j tok = token 1 0 posemb5) /\
    shape grid = [4; 1]%nat /\
    (forall i, token 1 i grid = token 1 (S i) posemb5).
Proof.
  refine (conj eq_refl (conj eq_refl (conj eq_refl _))).
  exact (C2_split_after_first_token 2 4 1 posemb5 eq_refl eq_refl eq_refl).
Defined.

(** A tree whose only top-level key is the empty string. *)
Definition empty_key_tree : dict (tree Z) :=
  [("", Dict [("x", Leaf (mkTensor [1]%nat [7]))])].

(** C3, as stated, fails on a key that is the empty string: the tree has
    distinct keys, no separator in any key and a single joined path, yet
    flattening it forgets the empty key and the recovered tree is
    [{"x": ...}]. *)
Lemma C3_empty_key_is_lost :
  unique_keys (Dict empty_key_tree) = true /\
  sep_free (Dict empty_key_tree) = true /\
  NoDup (joined_paths empty_key_tree) /\
  unflatten (_flatten_dict empty_key_tree "" "/")
    = Some [("x", Leaf (mkTensor [1]%nat [7]))] /\
  ~ tree_eq (Dict [("x", Leaf (mkTensor [1]%nat [7]))]) (Dict empty_key_tree).
Proof.
  repeat split.
  - simpl. constructor; [tauto | constructor].
  - simpl. intros [_ [[v' [H _]] _]]. discriminate.
Qed.

(** A tree with a nested empty sub-tree. *)
Definition nested_tree : dict (tree Z) :=
  [("a", Dict [("x", Leaf (mkTensor [1]%nat [7]));
               ("norm", Dict []);
               ("y", Dict [("z", Leaf (mkTensor [2]%nat [8; 9]))])]);
   ("b", Leaf (mkTensor [1]%nat [5]))].

(** A tree with empty keys: one bound to a tensor at the top level, and
    below the top level one bound to a sub-dict, one to an empty dict and one
    to a tensor. *)
Definition empty_keys_below : dict (tree Z) :=
  [("", Leaf (mkTensor [1]%nat [3]));
   ("a", Dict [("", Dict [("x", Leaf (mkTensor [1]%nat [7]));
                          ("", Leaf (mkTensor [1]%nat [4]))]);
               ("norm", Dict [("", Dict [])]);
               ("y", Dict [("z", Leaf (mkTensor [2]%nat [8; 9]))])]);
   ("b", Leaf (mkTensor [1]%nat [5]))].

Lemma C3_round_trip_run :
  unique_keys (Dict empty_keys_below) = true /\
  sep_free (Dict empty_keys_below) = true /\
  top_dicts_named empty_keys_below = true /\
  _flatten_dict empty_keys_below "" "/" =
    [("", Leaf (mkTensor [1]%nat [3]));
     ("a//x", Leaf (mkTensor [1]%nat [7]));
     ("a//", Leaf (mkTensor [1]%nat [4]));
     ("a/norm/", Dict []);
     ("a/y/z", Leaf (mkTensor [2]%nat [8; 9]));
     ("b", Leaf (mkTensor [1]%nat [5]))] /\
  (exists u,
      unflatten (_flatten_dict empty_keys_below "" "/") = Some u /\
      tree_eq (Dict u) (Dict empty_keys_below) /\
      tree_eq (Dict empty_keys_below) (Dict u)) /\
  (forall parent,
      parent <> "" ->
      _flatten_dict (elem := Z) [] parent "/" = [(parent, Dict [])]).
Proof.
  refine (conj eq_refl (conj eq_refl (conj eq_refl (conj eq_refl _)))).
  exact (C3_round_trip_named_subtrees empty_keys_below
           eq_refl eq_refl eq_refl).
Defined.

(** A checkpoint, the parameters of a freshly built model and its
    configuration: the checkpoint has a legacy [pre_logits] and no prompts,
    and its positional embedding already has the expected shape. *)
Definition init_small : dict (tree Z) :=
  [("Transformer",
    Dict [("posembed_input",
           Dict [("pos_embedding", Leaf (mkTensor [1; 2; 1]%nat [0; 0]))])]);
   ("head", Dict [("kernel", Leaf (mkTensor [2]%nat [1; 2]));
                  ("bias", Leaf (mkTensor [1]%nat [3]))]);
   ("shared_prompt", Dict [("prompt", Leaf (mkTensor [1]%nat [4]))]);
   ("prompt_pool", Dict [("prompt", Leaf (mkTensor [1]%nat [5]));
                         ("key", Leaf (mkTensor [1]%nat [6]))])].

Definition loaded_small : dict (tree Z) :=
  [("Transformer",
    Dict [("posembed_input",
           Dict [("pos_embedding", Leaf (mkTensor [1; 2; 1]%nat [21; 22]))])]);
   ("head", Dict [("kernel", Leaf (mkTensor [2]%nat [31; 32]));
                  ("bias", Leaf (mkTensor [1]%nat [33]))]);
   ("pre_logits", Dict [("kernel", Leaf (mkTensor [1]%nat [41]))])].

Definition cfg_small : model_config :=
  mkConfig None (Some true) (Some [("prompt_pool", Cfg.mkPrompt 2 1 true)]).

Definition result_small : dict (tree Z) :=
  [("Transformer",
    Dict [("posembed_input",
           Dict [("pos_embedding", Leaf (mkTensor [1; 2; 1]%nat [21; 22]))])]);
   ("head", Dict [("kernel", Leaf (mkTensor [2]%nat [1; 2]));
                  ("bias", Leaf (mkTensor [1]%nat [3]))]);
   ("shared_prompt", Dict [("prompt", Leaf (mkTensor [1]%nat [4]))]);
   ("prompt_pool", Dict [("prompt", Leaf (mkTensor [1]%nat [5]));
                         ("key", Leaf (mkTensor [1]%nat [6]))])].

Lemma C5_head_run :
  load_pretrained zoom_nearest sqrt_exact loaded_small init_small cfg_small
    = Ok result_small /\
  exists kernel bias,
    getitem2 init_small "head" "kernel" = Ok kernel /\
    getitem2 init_small "head" "bias" = Ok bias /\
    getitem2 result_small "head" "kernel" = Ok kernel /\
    getitem2 result_small "head" "bias" = Ok bias.
Proof.
  refine (conj eq_refl _).
  exact (C5_head_is_reinitialised zoom_nearest sqrt_exact loaded_small
           init_small
           cfg_small result_small eq_refl).
Defined.

Lemma C7_prompt_pool_run :
  In "prompt_pool" ["shared_prompt"; "task_specific_prompt"; "prompt_pool"] /\
  inspect_params loaded_small init_small false false = Ok loaded_small /\
  load_pretrained zoom_nearest sqrt_exact loaded_small init_small cfg_small
    = Ok result_small /\
  (dict_mem init_small "prompt_pool" = true ->
   dict_mem loaded_small "prompt_pool" = false ->
   exists p,
     getitem2 init_small "prompt_pool" "prompt" = Ok p /\
     if String.eqb "prompt_pool" "prompt_pool" && prompt_key_flag cfg_small
     then exists kx,
         getitem2 init_small "prompt_pool" "key" = Ok kx /\
         dict_get result_small "prompt_pool"
           = Some (Dict [("prompt", p); ("key", kx)])
     else dict_get result_small "prompt_pool" = Some (Dict [("prompt", p)])) /\
  (dict_mem loaded_small "prompt_pool" = true ->
   dict_get result_small "prompt_pool" = dict_get loaded_small "prompt_pool").
Proof.
  refine (conj (or_intror (or_intror (or_introl eq_refl)))
            (conj eq_refl (conj eq_refl _))).
  exact (C7_prompt_groups zoom_nearest sqrt_exact loaded_small init_small
           cfg_small
           loaded_small result_small "prompt_pool"
           (or_intror (or_intror (or_introl eq_refl))) eq_refl eq_refl).
Defined.

Lemma C9_same_shape_run :
  inspect_params loaded_small init_small false false = Ok loaded_small /\
  pos_embedding loaded_small = Ok (Leaf (mkTensor [1; 2; 1]%nat [21; 22])) /\
  pos_embedding init_small = Ok (Leaf (mkTensor [1; 2; 1]%nat [0; 0])) /\
  shape (mkTensor [1; 2; 1]%nat [21; 22]) = shape (mkTensor [1; 2; 1]%nat [0; 0]) /\
  (forall t,
      pos_embedding t = Ok (Leaf (mkTensor [1; 2; 1]%nat [21; 22])) ->
      rescale_posembed zoom_nearest sqrt_exact init_small cfg_small t = Ok t) /\
  (forall r,
      load_pretrained zoom_nearest sqrt_exact loaded_small init_small
        cfg_small = Ok r ->
      pos_embedding r = Ok (Leaf (mkTensor [1; 2; 1]%nat [21; 22]))).
Proof.
  refine (conj eq_refl (conj eq_refl (conj eq_refl (conj eq_refl _)))).
  exact (C9_same_shape_passes_through zoom_nearest sqrt_exact loaded_small
           init_small
           cfg_small loaded_small _ _ eq_refl eq_refl eq_refl eq_refl).
Defined.

(** C10, as stated, fails for a head without kernel: a checkpoint that
    stores [head/bias] only is loaded without any error, the overwrite
    creating the [kernel] entry. *)
Lemma C10_head_without_kernel_is_filled :
  load_pretrained zoom_nearest sqrt_exact
    [("head", Dict [("bias", Leaf (mkTensor [1]%nat [33]))])]
    [("head", Dict [("kernel", Leaf (mkTensor [2]%nat [1; 2]));
                    ("bias", Leaf (mkTensor [1]%nat [3]))])]
    (mkConfig None None None)
  = Ok [("head", Dict [("bias", Leaf (mkTensor [1]%nat [3]));
                       ("kernel", Leaf (mkTensor [2]%nat [1; 2]))])].
Proof. reflexivity. Qed.

(** A checkpoint without head: the run ends with [KeyError "head"]. *)
Lemma C10_missing_head_run :
  inspect_params (elem := Z) [] init_small false false = Ok [] /\
  load_pretrained zoom_nearest sqrt_exact [] init_small cfg_small
  = Err (KeyError "head").
Proof.
  destruct (C10_missing_head_raises_KeyError zoom_nearest sqrt_exact []
              init_small
              cfg_small) as [restored [Hi [_ [Hk _]]]].
  split; [reflexivity|].
  assert (Hr : restored = []) by (vm_compute in Hi; congruence).
  subst restored. destruct (Hk eq_refl) as [e [He [_ Hhead]]].
  rewrite He. f_equal. exact (Hhead _ eq_refl).
Defined.

(** The embeddings of C6: 197 and 401 tokens of one channel, and a
    configuration with a classification token only. *)
Definition posemb197 : tensor Z :=
  mkTensor [1; 197; 1]%nat (map Z.of_nat (seq 0 197)).

Definition posemb401 : tensor Z := mkTensor [1; 401; 1]%nat (repeat 0 401).

Definition cfg_cls : model_config := mkConfig None (Some true) None.

Lemma C6_resize_run :
  shape posemb197 = [1; 197; 1]%nat /\
  tensor_wf posemb197 /\
  shape posemb401 = [1; 401; 1]%nat /\
  token_len cfg_cls = 1 /\
  exists out z,
    zoom_nearest (mkTensor [14; 14; 1]%nat (skipn 1 (data posemb197))) 20 14
      = Ok z /\
    resize_posemb zoom_nearest sqrt_exact cfg_cls posemb197 posemb401
      = Ok out /\
    shape out = [1; 401; 1]%nat /\
    tensor_wf out /\
    data out = firstn 1 (data posemb197) ++ data z /\
    token 1 0 out = token 1 0 posemb197.
Proof.
  refine (conj eq_refl (conj eq_refl (conj eq_refl (conj eq_refl _)))).
  exact (C6_resize_197_to_401 zoom_nearest sqrt_exact zoom_nearest_grid
           cfg_cls posemb197 posemb401 1 eq_refl eq_refl eq_refl eq_refl).
Defined.

(** * Further properties of the loader *)

Local Close Scope Z_scope.

(** ** What _flatten_dict emits, on any tree *)

Section FlattenFacts.

Context {elem : Type}.

Implicit Types (t : tree elem) (d : dict (tree elem)).

Lemma keys_dict_set {V : Type} (s : dict V) (k : string) (v : V) :
  keys (dict_set s k v) = if key_in k (keys s) then keys s else keys s ++ [k].
Proof.
  induction s as [|[k0 v0] s IH]; simpl; auto.
  rewrite (String.eqb_sym k k0).
  destruct (String.eqb k0 k) eqn:E; simpl; auto.
  rewrite IH. now destruct (key_in k (keys s)).
Qed.

Lemma NoDup_dict_set {V : Type} (s : dict V) (k : string) (v : V) :
  NoDup (keys s) -> NoDup (keys (dict_set s k v)).
Proof.
  intros Hnd. rewrite keys_dict_set. destruct (key_in k (keys s)) eqn:E; auto.
  apply NoDup_app; auto.
  - constructor; [intros [] | constructor].
  - intros a Ha [<- | []]. apply key_in_true in Ha. congruence.
Qed.

Lemma In_keys_dict_set {V : Type} (s : dict V) (k g : string) (v : V) :
  In g (keys (dict_set s k v)) <-> g = k \/ In g (keys s).
Proof.
  rewrite keys_dict_set. destruct (key_in k (keys s)) eqn:E.
  - apply key_in_true in E. split; [tauto|]. intros [-> | H]; auto.
  - rewrite in_app_iff. simpl. intuition.
Qed.

Lemma dict_of_items_fold {V : Type} (items acc : list (string * V)) :
  let r := fold_left (fun s kv => dict_set s (fst kv) (snd kv)) items acc in
  (NoDup (keys acc) -> NoDup (keys r)) /\
  (forall g, In g (keys r) <-> In g (keys acc) \/ In g (keys items)) /\
  (forall kv, In kv r -> In kv acc \/ In kv items).
Proof.
  revert acc. induction items as [|[k v] items IH]; intros acc; simpl.
  - repeat split; auto; tauto.
  - destruct (IH (dict_set acc k v)) as [H1 [H2 H3]]. repeat split.
    + intros Hnd. apply H1. now apply NoDup_dict_set.
    + intros Hg. apply H2 in Hg. rewrite In_keys_dict_set in Hg.
      unfold keys in *. simpl. intuition (subst; auto).
    + intros Hg. apply H2. rewrite In_keys_dict_set.
      unfold keys in *. simpl in Hg. intuition (subst; auto).
    + intros [g w] Hin. apply H3 in Hin. destruct Hin as [Hin | Hin]; auto.
      apply In_dict_set in Hin. destruct Hin as [[-> ->] | Hin]; auto.
Qed.

Lemma dict_of_items_keys_NoDup {V : Type} (items : list (string * V)) :
  NoDup (keys (dict_of_items items)).
Proof.
  apply (dict_of_items_fold items []). constructor.
Qed.

Lemma dict_of_items_key {V : Type} (items : list (string * V)) g :
  In g (keys (dict_of_items items)) <-> In g (keys items).
Proof.
  destruct (dict_of_items_fold items []) as [_ [H _]].
  unfold dict_of_items. rewrite H. simpl. tauto.
Qed.

Lemma dict_of_items_In {V : Type} (items : list (string * V)) kv :
  In kv (dict_of_items items) -> In kv items.
Proof.
  destruct (dict_of_items_fold items []) as [_ [_ H]].
  intros Hin. destruct (H kv Hin) as [[] | Hi]. exact Hi.
Qed.

(** The items of one call of [_flatten_dict], before [dict(items)]. *)
Definition flat_items d (parent sep : string) : list (string * tree elem) :=
  flat_map
    (fun kv =>
       let path :=
         if truthy_str parent
         then (parent ++ sep ++ fst kv)%string else fst kv in
       match snd kv with
       | Dict _ => flatten_tree (snd kv) path sep
       | Leaf _ => [(path, snd kv)]
       end) d
  ++ (if truthy_str parent && negb (nonempty d)
      then [(parent, Dict [])] else []).

Lemma flatten_tree_items d parent sep :
  flatten_tree (Dict d) parent sep = dict_of_items (flat_items d parent sep).
Proof. apply flatten_tree_Dict. Qed.

(** X1: on every tree, with every parent key and separator, the flat dict
    has pairwise distinct keys and each of its values is a tensor or an
    empty dict: a dict with bindings is never a value. *)
Theorem flatten_values_are_leaves d parent sep :
  NoDup (keys (_flatten_dict d parent sep)) /\
  forall k v, In (k, v) (_flatten_dict d parent sep) -> is_leafish v = true.
Proof.
  unfold _flatten_dict. split.
  - rewrite flatten_tree_items. apply dict_of_items_keys_NoDup.
  - revert parent.
    induction (Dict d) as [x | d' IHd] using tree_induction; intros parent k v.
    + intros [].
    + rewrite flatten_tree_items. intros Hin.
      apply dict_of_items_In in Hin. unfold flat_items in Hin.
      apply in_app_or in Hin. destruct Hin as [Hin | Hin].
      * apply in_flat_map in Hin. destruct Hin as [[k0 v0] [Hkv Hin]].
        rewrite Forall_forall in IHd. specialize (IHd _ Hkv).
        cbn [fst snd] in *. destruct v0 as [x | d0].
        -- destruct Hin as [H | []]. now inversion H.
        -- eapply IHd. exact Hin.
      * destruct (truthy_str parent && negb (nonempty d')); [|destruct Hin].
        destruct Hin as [H | []]. now inversion H.
Qed.

Lemma append_assoc (a b c : string) :
  ((a ++ b) ++ c = a ++ (b ++ c))%string.
Proof. induction a as [|x a IH]; simpl; auto. now rewrite IH. Qed.

Lemma append_truthy (a b : string) :
  truthy_str a = true -> truthy_str (a ++ b) = true.
Proof. destruct a; simpl; [discriminate | reflexivity]. Qed.

(** X2: every flat key emitted for a sub-tree flattened under a non-empty
    parent key is the parent key itself or the parent key, the separator
    and a further path. *)
Theorem flatten_keys_extend_parent d parent sep k v :
  parent <> "" ->
  In (k, v) (_flatten_dict d parent sep) ->
  k = parent \/ exists rest, k = (parent ++ sep ++ rest)%string.
Proof.
  unfold _flatten_dict. revert parent k v.
  induction (Dict d) as [x | d' IHd] using tree_induction;
    intros parent k v Hp.
  - intros [].
  - rewrite flatten_tree_items. intros Hin.
    apply dict_of_items_In in Hin. unfold flat_items in Hin.
    rewrite (truthy_str_true parent Hp) in Hin.
    apply in_app_or in Hin. destruct Hin as [Hin | Hin].
    + apply in_flat_map in Hin. destruct Hin as [[k0 v0] [Hkv Hin]].
      rewrite Forall_forall in IHd. specialize (IHd _ Hkv).
      cbn [fst snd] in *. right. destruct v0 as [x | d0].
      * destruct Hin as [H | []]. inversion H. eauto.
      * apply IHd in Hin.
        -- destruct Hin as [-> | [rest ->]]; [eauto|].
           exists (k0 ++ sep ++ rest)%string.
           now rewrite !append_assoc.
        -- intros E. apply (f_equal truthy_str) in E.
           rewrite append_truthy in E; [discriminate|].
           now apply truthy_str_true.
    + cbn [andb] in Hin. destruct (negb (nonempty d')); [|destruct Hin].
      destruct Hin as [H | []]. inversion H. auto.
Qed.

End FlattenFacts.

(** ** What inspect_params changes *)

Section InspectFrame.

Context {elem : Type}.

Implicit Types (params expected : dict (tree elem)).

Lemma key_in_diff (k : string) (a b : list string) :
  key_in k (keys_diff a b) = key_in k a && negb (key_in k b).
Proof.
  apply eq_true_iff_eq.
  rewrite andb_true_iff, !key_in_true. unfold keys_diff.
  now rewrite filter_In.
Qed.

(** The returned tree, seen through its top-level lookups. *)
Lemma inspect_params_get params expected fe fm r k :
  inspect_params params expected fe fm = Ok r ->
  dict_get r k =
  if key_in k (keys (_flatten_dict expected "" "/"))
     && negb (key_in k (keys (_flatten_dict params "" "/")))
     && expected_empty (_flatten_dict expected "" "/") k
  then Some (Dict [])
  else dict_get params k.
Proof.
  rewrite inspect_params_unfold. cbv zeta.
  destruct (_ || _); [discriminate|]. intros H. inversion H.
  now rewrite recover_empty_get, key_in_diff.
Qed.

Lemma top_level_tensor_is_flat_key params sep k x :
  dict_get params k = Some (Leaf x) ->
  In k (keys (_flatten_dict params "" sep)).
Proof.
  intros Hk. apply dict_get_In in Hk. unfold _flatten_dict.
  rewrite flatten_tree_items. apply dict_of_items_key.
  unfold flat_items, keys. rewrite map_app. apply in_or_app. left.
  apply in_map_iff. exists (k, Leaf x). split; auto.
  apply in_flat_map. exists (k, Leaf x). split; auto. now left.
Qed.

(** X3: when [inspect_params] returns, a top-level lookup in the returned
    tree under a flat key that is expected with an empty dict and was not
    restored gives an empty dict; under every other key it gives what it
    gave in [params]; a tensor bound at the top level is never replaced. *)
Theorem inspect_params_changes_only_empty_keys params expected fe fm r :
  inspect_params params expected fe fm = Ok r ->
  (forall k,
      dict_get (_flatten_dict expected "" "/") k = Some (Dict []) ->
      ~ In k (keys (_flatten_dict params "" "/")) ->
      dict_get r k = Some (Dict [])) /\
  (forall k,
      dict_get (_flatten_dict expected "" "/") k <> Some (Dict []) \/
      In k (keys (_flatten_dict params "" "/")) ->
      dict_get r k = dict_get params k) /\
  (forall k x, dict_get params k = Some (Leaf x) ->
               dict_get r k = Some (Leaf x)).
Proof.
  intros H. split; [|split].
  - intros k He Hp. rewrite (inspect_params_get _ _ _ _ _ k H).
    assert (Hin : key_in k (keys (_flatten_dict expected "" "/")) = true).
    { apply key_in_true. apply dict_get_In in He.
      unfold keys. apply in_map_iff. now exists (k, Dict []). }
    assert (Hout : key_in k (keys (_flatten_dict params "" "/")) = false).
    { destruct (key_in k (keys (_flatten_dict params "" "/"))) eqn:E; auto.
      apply key_in_true in E. contradiction. }
    unfold expected_empty. now rewrite Hin, Hout, He.
  - intros k Hk. rewrite (inspect_params_get _ _ _ _ _ k H).
    destruct Hk as [Hne | Hin].
    + unfold expected_empty.
      destruct (dict_get (_flatten_dict expected "" "/") k)
        as [[x|[|kv d]]|]; cbn [is_empty_dict];
        rewrite ?andb_false_r; auto.
      congruence.
    + apply key_in_true in Hin. rewrite Hin. cbn [negb].
      now rewrite andb_false_r.
  - intros k x Hk. rewrite (inspect_params_get _ _ _ _ _ k H).
    pose proof (top_level_tensor_is_flat_key params "/" k x Hk) as Hin.
    apply key_in_true in Hin. rewrite Hin, andb_false_r. exact Hk.
Qed.

Lemma rel_key_block (d : dict (tree elem)) p :
  In p (keys (rel (Dict d))) -> exists kv, In kv d /\ In p (keys (block kv)).
Proof.
  rewrite rel_Dict. unfold keys. intros H. apply in_map_iff in H.
  destruct H as [x [<- Hx]]. apply in_flat_map in Hx.
  destruct Hx as [kv [Hkv Hx]]. exists kv. split; auto. now apply in_map.
Qed.

(** X4: on trees of distinct, non-empty, separator-free keys, if the
    expected tree binds a top-level key to an empty dict and the restored
    tree binds it to a dict that has bindings, [inspect_params] (with the
    flags of [load_pretrained]) returns a tree in which that key is bound
    to an empty dict: the restored sub-tree is dropped. *)
Theorem inspect_params_drops_nonempty_subtree params expected k kv d :
  segments_ok (Dict params) = true -> unique_keys (Dict params) = true ->
  segments_ok (Dict expected) = true -> unique_keys (Dict expected) = true ->
  dict_get expected k = Some (Dict []) ->
  dict_get params k = Some (Dict (kv :: d)) ->
  exists r,
    inspect_params params expected false false = Ok r /\
    dict_get r k = Some (Dict []).
Proof.
  intros Sp Up Se Ue He Hp.
  assert (Hr : exists r, inspect_params params expected false false = Ok r).
  { rewrite inspect_params_unfold. cbv zeta. rewrite !andb_false_r.
    cbn [orb]. eauto. }
  destruct Hr as [r Hr]. exists r. split; auto.
  rewrite (inspect_params_get _ _ _ _ _ k Hr).
  pose proof (segments_ok_sep_free _ Sp) as Fp.
  pose proof (segments_ok_sep_free _ Se) as Fe.
  rewrite !flatten_dict_rel by auto using segments_ok_named.
  apply dict_get_In in He. apply dict_get_In in Hp.
  pose proof Se as Se'. apply segments_ok_Dict in Se'.
  rewrite Forall_forall in Se'. destruct (Se' _ He) as [Hk _].
  cbn [fst] in Hk. apply segment_true in Hk. destruct Hk as [_ Hk].
  assert (Hin : In (k, Dict []) (rel (Dict expected))).
  { rewrite rel_Dict. apply in_flat_map. exists (k, Dict []).
    split; auto. now left. }
  assert (Hget : dict_get (rel (Dict expected)) k = Some (Dict [])).
  { apply dict_get_NoDup; auto. now apply rel_NoDup. }
  assert (Hke : key_in k (keys (rel (Dict expected))) = true).
  { apply key_in_true. unfold keys. apply in_map_iff.
    exists (k, Dict []). auto. }
  assert (Hkp : key_in k (keys (rel (Dict params))) = false).
  { destruct (key_in k (keys (rel (Dict params)))) eqn:E; auto.
    exfalso. apply key_in_true in E. apply rel_key_block in E.
    destruct E as [kv' [Hkv' Hb]].
    pose proof Sp as Sp'. apply segments_ok_Dict in Sp'.
    rewrite Forall_forall in Sp'. destruct (Sp' _ Hkv') as [Hk' _].
    apply segment_true in Hk'. destruct Hk' as [_ Hk'].
    pose proof (block_head kv' k Hk' Hb) as Hh.
    rewrite head_seg_plain in Hh by auto.
    apply unique_keys_Dict in Up. destruct Up as [Hnd _].
    assert (kv' = (k, Dict (kv :: d))).
    { apply (NoDup_keys_inj params); auto. }
    subst kv'. unfold block in Hb. cbn [snd fst is_leafish] in Hb.
    rewrite keys_map_prefix in Hb. apply in_map_iff in Hb.
    destruct Hb as [q [Hq _]].
    pose proof (contains_sep_join k q) as Hc. rewrite Hq in Hc. congruence. }
  rewrite Hke, Hkp. unfold expected_empty. rewrite Hget. reflexivity.
Qed.

End InspectFrame.

(** ** recover_tree on arbitrary names *)

Section RecoverFacts.

Context {elem : Type}.

Lemma scan_flat (l : list (string * tree elem)) T S :
  (forall kv, In kv l -> contains_sep (fst kv) = false) ->
  fold_left scan_key l (T, S) =
  (fold_left (fun s kv => dict_set s (fst kv) (snd kv)) l T, S).
Proof.
  revert T. induction l as [|[k v] l IH]; intros T Hl; cbn [fold_left]; auto.
  pose proof (Hl (k, v) (or_introl eq_refl)) as E. cbn [fst] in E.
  rewrite scan_key_plain by auto. apply IH.
  intros kv Hin. apply Hl. now right.
Qed.

(** The first loop stores the values of the names without separator. *)
Lemma scan_fst (l : list (string * tree elem)) st :
  fst (fold_left scan_key l st) =
  fold_left (fun s kv => dict_set s (fst kv) (snd kv))
    (filter (fun kv => negb (contains_sep (fst kv))) l) (fst st).
Proof.
  revert st. induction l as [|[k v] l IH]; intros st; cbn [fold_left]; auto.
  rewrite IH. cbn [filter fst]. unfold scan_key.
  destruct (contains_sep k); cbn [negb]; auto.
  now destruct (split_sep k).
Qed.

(** X5: on names without separator, [recover_tree] returns the dict of the
    zipped names and values, [dict(zip(keys, values))]: no sub-tree is
    made, and of two values under one name the later one is kept. *)
Theorem recover_tree_flat_names (keys : list string)
    (values : list (tree elem)) :
  (forall k, In k keys -> contains_sep k = false) ->
  recover_tree keys values = Some (dict_of_items (combine keys values)).
Proof.
  intros Hk. unfold recover_tree, key_bound. rewrite recover_tree_fuel_S.
  cbv zeta. rewrite scan_flat.
  - reflexivity.
  - intros [k v] Hin. apply in_combine_l in Hin. cbn [fst]. auto.
Qed.

Lemma group_append_keys (S : dict (list (string * tree elem))) k x g :
  In g (keys (group_append S k x)) <-> g = k \/ In g (keys S).
Proof.
  unfold group_append. destruct (dict_get S k); apply In_keys_dict_set.
Qed.

Lemma group_append_NoDup (S : dict (list (string * tree elem))) k x :
  NoDup (keys S) -> NoDup (keys (group_append S k x)).
Proof.
  unfold group_append. destruct (dict_get S k); apply NoDup_dict_set.
Qed.

Lemma scan_groups (l : list (string * tree elem)) st :
  let st' := fold_left scan_key l st in
  (NoDup (keys (snd st)) -> NoDup (keys (snd st'))) /\
  (forall g, In g (keys (snd st)) -> In g (keys (snd st'))) /\
  (forall kv, In kv l -> contains_sep (fst kv) = true ->
              In (fst (split_sep (fst kv))) (keys (snd st'))) /\
  (forall g, In g (keys (snd st')) ->
             In g (keys (snd st)) \/
             exists kv, In kv l /\ contains_sep (fst kv) = true /\
                        g = fst (split_sep (fst kv))).
Proof.
  revert st. induction l as [|[k v] l IH]; intros st; cbn [fold_left].
  - repeat split; auto. intros kv [].
  - cbv zeta.
    destruct (IH (scan_key st (k, v))) as [H1 [H2 [H3 H4]]]. cbv zeta in *.
    assert (Hmono : forall g, In g (keys (snd st)) ->
                              In g (keys (snd (scan_key st (k, v))))).
    { intros g Hg. unfold scan_key. destruct (contains_sep k); auto.
      destruct (split_sep k). cbn [snd]. apply group_append_keys. auto. }
    repeat split.
    + intros Hnd. apply H1. unfold scan_key. destruct (contains_sep k); auto.
      destruct (split_sep k). cbn [snd]. now apply group_append_NoDup.
    + intros g Hg. auto.
    + intros kv [<- | Hin] Hs; [|now apply H3].
      cbn [fst] in *. apply H2. unfold scan_key. rewrite Hs.
      destruct (split_sep k). cbn [fst snd]. apply group_append_keys. auto.
    + intros g Hg. apply H4 in Hg. destruct Hg as [Hg | [kv [Hin Hkv]]].
      * unfold scan_key in Hg. destruct (contains_sep k) eqn:Hs; auto.
        destruct (split_sep k) as [kl kr] eqn:Hsplit. cbn [snd] in Hg.
        apply group_append_keys in Hg. destruct Hg as [-> | Hg]; auto.
        right. exists (k, v). cbn [fst]. rewrite Hsplit. auto using in_eq.
      * right. exists kv. split; [now right | exact Hkv].
Qed.

Lemma build_from_None fuel (G : dict (list (string * tree elem))) :
  fold_left
    (fun acc (g : string * list (string * tree elem)) =>
       match acc with
       | None => None
       | Some tree =>
           match recover_tree_fuel fuel (map fst (snd g)) (map snd (snd g))
           with
           | None => None
           | Some sub => Some (dict_set tree (fst g) (Dict sub))
           end
       end)
    G None = None.
Proof. induction G as [|g G IH]; simpl; auto. Qed.

(** The second loop binds every group name to a sub-tree and leaves the
    other bindings as the first loop made them. *)
Lemma build_lookup fuel (G : dict (list (string * tree elem))) T t :
  fold_left
    (fun acc (g : string * list (string * tree elem)) =>
       match acc with
       | None => None
       | Some tree =>
           match recover_tree_fuel fuel (map fst (snd g)) (map snd (snd g))
           with
           | None => None
           | Some sub => Some (dict_set tree (fst g) (Dict sub))
           end
       end)
    G (Some T) = Some t ->
  forall k,
    (In k (keys G) -> exists sub, dict_get t k = Some (Dict sub)) /\
    (~ In k (keys G) -> dict_get t k = dict_get T k).
Proof.
  revert T. induction G as [|[g items] G IH]; intros T H k.
  - simpl in H. inversion H. subst. split; [intros [] | auto].
  - cbn [fold_left fst snd] in H.
    destruct (recover_tree_fuel fuel (map fst items) (map snd items))
      as [sub|]; [|now rewrite build_from_None in H].
    destruct (IH _ H k) as [Hin Hout].
    destruct (in_dec string_dec k (keys G)) as [HG | HG].
    + split; [auto | intros Hk; exfalso; apply Hk; now right].
    + split.
      * intros [<- | Hk]; [|contradiction].
        rewrite Hout by auto. rewrite dict_get_set_eq. eauto.
      * intros Hk. simpl in Hk. rewrite Hout by auto.
        apply dict_get_set_ne. tauto.
Qed.

(** X6: in the tree that [recover_tree] returns, the first segment of every
    name that contains a separator is bound to a sub-tree (a value stored
    under that segment alone is overwritten), and a name without separator
    that is the first segment of no other name is bound to the last value
    given for it. *)
Theorem recover_tree_subtrees_win (keys : list string)
    (values : list (tree elem)) :
  exists t,
    recover_tree keys values = Some t /\
    (forall p v,
        In (p, v) (combine keys values) -> contains_sep p = true ->
        exists sub, dict_get t (fst (split_sep p)) = Some (Dict sub)) /\
    (forall k,
        contains_sep k = false ->
        (forall p v, In (p, v) (combine keys values) ->
                     contains_sep p = true -> fst (split_sep p) <> k) ->
        dict_get t k =
        dict_get
          (dict_of_items
             (filter (fun kv => negb (contains_sep (fst kv)))
                (combine keys values))) k).
Proof.
  destruct (recover_tree_fuel_total
              (fold_right Nat.max 0 (map String.length keys)) keys values)
    as [t Ht]; [intros k Hk; now apply length_le_max|].
  exists t. split; [exact Ht|].
  rewrite recover_tree_fuel_S in Ht. cbv zeta in Ht.
  set (st := fold_left scan_key (combine keys values) ([], [])) in *.
  destruct (scan_groups (combine keys values) ([], []))
    as [_ [_ [Hgroups Hconv]]]. cbv zeta in Hgroups, Hconv.
  fold st in Hgroups, Hconv.
  split.
  - intros p v Hin Hs.
    destruct (build_lookup _ _ _ _ Ht (fst (split_sep p))) as [Hsub _].
    apply Hsub. apply (Hgroups (p, v)); auto.
  - intros k Hk Hfree.
    destruct (build_lookup _ _ _ _ Ht k) as [_ Hout].
    rewrite Hout.
    + subst st. now rewrite scan_fst.
    + intros Hin. apply Hconv in Hin.
      destruct Hin as [[] | [[p v] [Hin [Hs Hg]]]].
      cbn [fst] in *. now apply (Hfree p v).
Qed.

End RecoverFacts.

(** ** What load_pretrained leaves alone *)

Section LoadFrame.

Context {elem : Type}.

Variable zoom : tensor elem -> nat -> nat -> result (tensor elem).
Variable sqrt_excess : Z -> nat.

Implicit Types (t restored loaded init_params : dict (tree elem)).

(** The top-level keys that [load_pretrained] may rebind after
    [inspect_params]. *)
Definition adapted_keys : list string :=
  ["pre_logits"; "head"; "shared_prompt"; "task_specific_prompt";
   "prompt_pool"; "Transformer"].

(** X7: every top-level entry of the reconciled tree other than
    [pre_logits], [head], the three prompt groups and [Transformer] is in
    the returned tree as [inspect_params] returned it. *)
Theorem load_pretrained_keeps_other_entries loaded init_params cfg
    restored r k :
  inspect_params loaded init_params false false = Ok restored ->
  load_pretrained zoom sqrt_excess loaded init_params cfg = Ok r ->
  ~ In k adapted_keys ->
  dict_get r k = dict_get restored k.
Proof.
  intros Hi H Hk. unfold load_pretrained in H. rewrite Hi in H.
  cbn [bind] in H. apply adapt_Ok in H.
  destruct H as [t1 [t2 [H1 [H2 H3]]]]. unfold adapted_keys in Hk.
  simpl in Hk.
  rewrite (rescale_posembed_other _ _ _ _ _ _ _ H3) by (intros ->; tauto).
  rewrite (add_prompt_groups_other _ _ _ _ _ H2) by (simpl; tauto).
  rewrite (overwrite_head_other _ _ _ _ H1) by (intros ->; tauto).
  apply drop_pre_logits_other. intros ->. tauto.
Qed.

Lemma dict_get_pop_eq {V : Type} (d : dict V) (k : string) :
  NoDup (keys d) -> dict_get (dict_pop d k) k = None.
Proof.
  induction d as [|[k0 v0] d IH]; simpl; auto. intros Hnd.
  inversion Hnd as [|? ? Hnotin Hnd']. subst.
  destruct (String.eqb k0 k) eqn:E.
  - apply String.eqb_eq in E. subst k0. now apply dict_get_None.
  - simpl. rewrite E. auto.
Qed.

Lemma recover_empty_NoDup (ef : dict (tree elem)) l st :
  NoDup (keys (fst st)) ->
  NoDup (keys (fst (fold_left (recover_empty ef) l st))).
Proof.
  revert st. induction l as [|k l IH]; intros st Hnd; simpl; auto.
  apply IH. rewrite recover_empty_step.
  destruct (expected_empty ef k); auto. cbn [fst].
  now apply NoDup_dict_set.
Qed.

(** [inspect_params] returns a dict when it is given one. *)
Lemma inspect_params_NoDup loaded init_params fe fm restored :
  NoDup (keys loaded) ->
  inspect_params loaded init_params fe fm = Ok restored ->
  NoDup (keys restored).
Proof.
  intros Hnd. rewrite inspect_params_unfold. cbv zeta.
  destruct (_ || _); [discriminate|]. intros H. inversion H.
  now apply recover_empty_NoDup.
Qed.

(** X8: when the configuration has no [representation_size], the returned
    tree has no [pre_logits] entry, whether the checkpoint had one or not;
    when it has one, [pre_logits] is in the returned tree as
    [inspect_params] returned it. *)
Theorem load_pretrained_drops_pre_logits loaded init_params cfg restored r :
  NoDup (keys loaded) ->
  inspect_params loaded init_params false false = Ok restored ->
  load_pretrained zoom sqrt_excess loaded init_params cfg = Ok r ->
  dict_get r "pre_logits" =
  match representation_size cfg with
  | None => None
  | Some _ => dict_get restored "pre_logits"
  end.
Proof.
  intros Hnd Hi H.
  pose proof (inspect_params_NoDup _ _ _ _ _ Hnd Hi) as Hnd'.
  unfold load_pretrained in H. rewrite Hi in H.
  cbn [bind] in H. apply adapt_Ok in H.
  destruct H as [t1 [t2 [H1 [H2 H3]]]].
  rewrite (rescale_posembed_other _ _ _ _ _ _ _ H3) by discriminate.
  rewrite (add_prompt_groups_other _ _ _ _ _ H2)
    by (simpl; intros [E|[E|[E|[]]]]; discriminate).
  rewrite (overwrite_head_other _ _ _ _ H1) by discriminate.
  unfold drop_pre_logits. destruct (representation_size cfg); auto.
  unfold dict_mem.
  destruct (dict_get restored "pre_logits") eqn:E; auto.
  now apply dict_get_pop_eq.
Qed.

(** What the rescaling step returns. *)
Lemma rescale_posembed_Ok init_params cfg t t' :
  rescale_posembed zoom sqrt_excess init_params cfg t = Ok t' ->
  (t' = t /\
   forall posemb posemb_new,
     pos_embedding t = Ok (Leaf posemb) ->
     pos_embedding init_params = Ok (Leaf posemb_new) ->
     shape posemb = shape posemb_new) \/
  exists tr pi posemb posemb_new out,
    dict_get t "Transformer" = Some (Dict tr) /\
    dict_get tr "posembed_input" = Some (Dict pi) /\
    dict_get pi "pos_embedding" = Some (Leaf posemb) /\
    pos_embedding init_params = Ok (Leaf posemb_new) /\
    shape posemb <> shape posemb_new /\
    resize_posemb zoom sqrt_excess cfg posemb posemb_new = Ok out /\
    t' = dict_set t "Transformer"
           (Dict (dict_set tr "posembed_input"
                    (Dict (dict_set pi "pos_embedding" (Leaf out))))).
Proof.
  unfold rescale_posembed. intros H.
  destruct (contains _ "posembed_input") eqn:Ec.
  - apply bind_Ok in H. destruct H as [pe [Hpe H]].
    apply bind_Ok in H. destruct H as [pe_new [Hnew H]].
    apply bind_Ok in H. destruct H as [s [Hs H]].
    apply bind_Ok in H. destruct H as [s_new [Hsn H]].
    destruct pe as [posemb|]; [|discriminate].
    destruct pe_new as [posemb_new|]; [|discriminate].
    simpl in Hs, Hsn. inversion Hs. inversion Hsn. subst.
    destruct (list_eq_dec Nat.eq_dec (shape posemb) (shape posemb_new))
      as [E | E].
    + injection H as <-. left. split; auto. intros p q Hp Hq. congruence.
    + apply bind_Ok in H. destruct H as [out [Hout H]].
      pose proof Hpe as Hpe'. apply pos_embedding_Ok in Hpe'.
      destruct Hpe' as [tr [pi [Htr [Hpi Hx]]]].
      right. exists tr, pi, posemb, posemb_new, out.
      repeat split; auto.
      unfold set_pos_embedding, getitem in H. rewrite Htr in H.
      cbn [bind subscript] in H. unfold getitem in H. rewrite Hpi in H.
      cbn [bind store] in H. now inversion H.
  - injection H as <-. left. split; auto. intros p q Hp _. exfalso.
    apply pos_embedding_Ok in Hp. destruct Hp as [tr [pi [Htr [Hpi _]]]].
    rewrite Htr in Ec. unfold contains, dict_mem in Ec.
    rewrite Hpi in Ec. discriminate.
Qed.

(** X9: when the restored and the expected positional embeddings differ in
    shape and the rescaling step returns, the returned tree holds the
    resampled embedding at [Transformer/posembed_input/pos_embedding], and
    every other entry of [Transformer] and of [posembed_input] is as it
    was. *)
Theorem rescale_posembed_replaces_one_leaf init_params cfg t t'
    posemb posemb_new :
  pos_embedding t = Ok (Leaf posemb) ->
  pos_embedding init_params = Ok (Leaf posemb_new) ->
  shape posemb <> shape posemb_new ->
  rescale_posembed zoom sqrt_excess init_params cfg t = Ok t' ->
  exists out,
    resize_posemb zoom sqrt_excess cfg posemb posemb_new = Ok out /\
    pos_embedding t' = Ok (Leaf out) /\
    (forall k, k <> "posembed_input" ->
               getitem2 t' "Transformer" k = getitem2 t "Transformer" k) /\
    (forall tr tr' k,
        k <> "pos_embedding" ->
        dict_get t "Transformer" = Some (Dict tr) ->
        dict_get t' "Transformer" = Some (Dict tr') ->
        getitem2 tr' "posembed_input" k = getitem2 tr "posembed_input" k).
Proof.
  intros Hp Hq Hs H.
  apply rescale_posembed_Ok in H.
  destruct H as [[_ Hsame] | [tr0 [pi0 [p0 [q0 [out
                   [Htr0 [Hpi0 [Hx0 [Hq0 [_ [Hout ->]]]]]]]]]]]].
  - exfalso. apply Hs. now apply Hsame.
  - apply pos_embedding_Ok in Hp. destruct Hp as [tr [pi [Htr [Hpi Hx]]]].
    rewrite Htr in Htr0. inversion Htr0. subst tr0.
    rewrite Hpi in Hpi0. inversion Hpi0. subst pi0.
    rewrite Hx in Hx0. inversion Hx0. subst p0.
    rewrite Hq in Hq0. inversion Hq0. subst q0.
    exists out. repeat split; auto.
    + apply pos_embedding_Ok. eexists. eexists.
      split; [apply dict_get_set_eq|]. split; apply dict_get_set_eq.
    + intros k Hk. unfold getitem2, getitem.
      rewrite dict_get_set_eq, Htr. cbn [bind subscript]. unfold getitem.
      rewrite dict_get_set_ne by congruence. reflexivity.
    + intros tr1 tr1' k Hk H1 H1'. rewrite Htr in H1. inversion H1. subst.
      rewrite dict_get_set_eq in H1'. inversion H1'. subst.
      unfold getitem2, getitem. rewrite dict_get_set_eq, Hpi.
      cbn [bind subscript]. unfold getitem.
      rewrite dict_get_set_ne by congruence. reflexivity.
Qed.

End LoadFrame.

(** ** The resampler on grids of any size *)

Section ResizeFacts.

Context {elem : Type}.

Variable zoom : tensor elem -> nat -> nat -> result (tensor elem).
Variable sqrt_excess : Z -> nat.

(** What is assumed of [scipy.ndimage.zoom]: zooming an array of shape
    (b, b, c) with channels by the factors (a / b, a / b, 1) yields an
    array of shape (a, a, c). *)
Hypothesis zoom_shape :
  forall g a b c,
    shape g = [b; b; c] -> 0 < a -> 0 < b -> 0 < c ->
    exists z, zoom g a b = Ok z /\ shape z = [a; a; c].

(** What it returns from an array is an array: its contents fill its
    shape. *)
Hypothesis zoom_wf :
  forall g a b z, tensor_wf g -> zoom g a b = Ok z -> tensor_wf z.

(** Below 2^52 the root is the integer square root. *)
Lemma int_sqrt_pos (k : Z) :
  (1 <= k)%Z -> (k < 2 ^ 52)%Z ->
  int_sqrt sqrt_excess k = Ok (Z.to_nat (Z.sqrt k)) /\
  0 < Z.to_nat (Z.sqrt k).
Proof.
  intros Hk Hb. unfold int_sqrt.
  destruct (Z.ltb_spec k 0); [lia|].
  apply Z.ltb_lt in Hb. rewrite Hb. split; auto.
  assert (0 < Z.sqrt k)%Z by (apply Z.sqrt_pos; lia). lia.
Qed.

(** However the float root is rounded, the root of a positive count is
    positive. *)
Lemma int_sqrt_any (k : Z) :
  (1 <= k)%Z -> exists g, int_sqrt sqrt_excess k = Ok g /\ 0 < g.
Proof.
  intros Hk. unfold int_sqrt.
  destruct (Z.ltb_spec k 0); [lia|].
  assert (0 < Z.sqrt k)%Z by (apply Z.sqrt_pos; lia).
  destruct (k <? 2 ^ 52)%Z; eexists; (split; [reflexivity|lia]).
Qed.

Lemma int_sqrt_square (a : nat) :
  (Z.of_nat (a * a) < 2 ^ 52)%Z ->
  int_sqrt sqrt_excess (Z.of_nat (a * a)) = Ok a.
Proof.
  intros Hb. unfold int_sqrt.
  destruct (Z.ltb_spec (Z.of_nat (a * a)) 0); [lia|].
  apply Z.ltb_lt in Hb. rewrite Hb.
  rewrite Nat2Z.inj_mul, Z.sqrt_square by lia. now rewrite Nat2Z.id.
Qed.

Lemma reshape_infer_fits (t : tensor elem) (known : list nat) (q : nat) :
  size t = fold_right Nat.mul 1 known * q ->
  0 < fold_right Nat.mul 1 known ->
  reshape_infer t known = Ok (mkTensor (known ++ [q]) (data t)).
Proof.
  intros Hsize Hpos. unfold reshape_infer. rewrite Hsize.
  rewrite Nat.mul_comm, Nat.Div0.mod_mul, Nat.div_mul by lia.
  destruct (Nat.eqb_spec (fold_right Nat.mul 1 known) 0); [lia|].
  reflexivity.
Qed.

Lemma length_concat_repeat (row : list elem) (reps : nat) :
  List.length (List.concat (repeat row reps)) = reps * List.length row.
Proof.
  induction reps as [|reps IH]; simpl; auto. now rewrite length_app, IH.
Qed.

Lemma token_app_l (c j : nat) (A B : list elem) :
  S j * c <= List.length A ->
  firstn c (skipn (j * c) (A ++ B)) = firstn c (skipn (j * c) A).
Proof.
  intros Hlen. rewrite skipn_app, firstn_app, length_skipn.
  replace (c - (List.length A - j * c)) with 0 by (simpl in Hlen; lia).
  cbn [firstn]. apply app_nil_r.
Qed.

(** The run of the resampler on a restored embedding of one token and an
    [a] by [a] grid, with [token_len > 0] and token counts below 2^52. *)
Lemma resize_posemb_square cfg posemb posemb_new a C s0 n_new rest :
  0 < C -> 0 < a ->
  (Z.of_nat (a * a) < 2 ^ 52)%Z ->
  shape posemb = [1; S (a * a); C] ->
  tensor_wf posemb ->
  shape posemb_new = s0 :: n_new :: rest ->
  (0 < token_len cfg)%Z ->
  (1 <= Z.of_nat n_new - token_len cfg)%Z ->
  (Z.of_nat n_new - token_len cfg < 2 ^ 52)%Z ->
  let g := Z.to_nat (Z.sqrt (Z.of_nat n_new - token_len cfg)) in
  let tok := tile_tokens (Z.to_nat (token_len cfg)) 1 C
               (slice_tokens 1 (S (a * a)) C posemb) in
  exists z,
    zoom (mkTensor [a; a; C] (skipn (1 * C) (data posemb))) g a = Ok z /\
    shape z = [g; g; C] /\
    tensor_wf z /\
    List.length (data tok) = Z.to_nat (token_len cfg) * C /\
    resize_posemb zoom sqrt_excess cfg posemb posemb_new =
    Ok (mkTensor [1; 1 * Z.to_nat (token_len cfg) + g * g; C]
          (data tok ++ data z)).
Proof.
  intros HC Ha Hba Hs Hwf Hnew Ht Hk Hbk g tok.
  destruct (int_sqrt_pos _ Hk Hbk) as [Hsqrt Hg]. fold g in Hsqrt, Hg.
  destruct (zoom_shape (mkTensor [a; a; C] (skipn (1 * C) (data posemb)))
              g a C eq_refl Hg Ha HC) as [z [Hz Hzs]].
  assert (Hgwf : tensor_wf
                   (mkTensor [a; a; C] (skipn (1 * C) (data posemb)))).
  { unfold tensor_wf in *. rewrite Hs in Hwf. cbn [shape data fold_right] in *.
    rewrite length_skipn, Hwf. nia. }
  exists z. split; [exact Hz|]. split; [exact Hzs|].
  split; [exact (zoom_wf _ _ _ _ Hgwf Hz)|]. split.
  { unfold tok, tile_tokens, slice_tokens. cbn [data].
    rewrite length_concat_repeat. change (Nat.min 1 (S (a * a))) with 1.
    now rewrite Nat.mul_1_l, (first_token_length (a * a) C posemb Hs Hwf). }
  unfold resize_posemb. rewrite Hnew.
  rewrite (split_tokens_positive _ (S (a * a)) C posemb Hs) by lia.
  cbn [bind fst snd]. change (Nat.min 1 (S (a * a))) with 1. fold tok.
  assert (Hgt : (token_len cfg >? 0)%Z = true) by (apply Z.gtb_lt; lia).
  rewrite Hgt, Hsqrt.
  set (grid := row0_from 1 (S (a * a)) C posemb).
  assert (Hgrid : shape grid = [a * a; C]).
  { unfold grid, row0_from. cbn [shape].
    now rewrite Nat.sub_succ, Nat.sub_0_r. }
  assert (Hdata : data grid = skipn (1 * C) (data posemb)) by reflexivity.
  clearbody grid. rewrite Hgrid. cbn [hd].
  rewrite (int_sqrt_square a Hba). cbn [bind].
  rewrite (reshape_infer_fits grid [a; a] C);
    [|unfold size; rewrite Hgrid; cbn [fold_right]; nia
     |cbn [fold_right]; nia].
  cbn [bind app]. rewrite Hdata, Hz. cbn [bind].
  rewrite (reshape_infer_fits z [1; g * g] C);
    [|unfold size; rewrite Hzs; cbn [fold_right]; nia
     |cbn [fold_right]; nia].
  cbn [bind]. unfold concatenate_tokens, tok, tile_tokens. cbn [shape app].
  now rewrite Nat.eqb_refl.
Qed.

(** X10: for a restored embedding of one token followed by an [a] by [a]
    grid, a positive [token_len] and token counts below 2^52 (where
    [int(np.sqrt(n))] is the integer square root), the resampled embedding
    has [token_len + g * g] tokens, [g] being the integer square root of
    the expected token count less [token_len]; its contents fill that
    shape, and each of its first [token_len] slots is token 0 of the
    restored embedding. *)
Theorem resize_posemb_shape_law cfg posemb posemb_new a C s0 n_new rest :
  0 < C -> 0 < a ->
  (Z.of_nat (a * a) < 2 ^ 52)%Z ->
  shape posemb = [1; S (a * a); C] ->
  tensor_wf posemb ->
  shape posemb_new = s0 :: n_new :: rest ->
  (0 < token_len cfg)%Z ->
  (1 <= Z.of_nat n_new - token_len cfg)%Z ->
  (Z.of_nat n_new - token_len cfg < 2 ^ 52)%Z ->
  let g := Z.to_nat (Z.sqrt (Z.of_nat n_new - token_len cfg)) in
  exists out,
    resize_posemb zoom sqrt_excess cfg posemb posemb_new = Ok out /\
    shape out = [1; Z.to_nat (token_len cfg) + g * g; C] /\
    tensor_wf out /\
    (forall j, j < Z.to_nat (token_len cfg) ->
               token C j out = token C 0 posemb).
Proof.
  intros HC Ha Hba Hs Hwf Hnew Ht Hk Hbk g.
  destruct (resize_posemb_square cfg posemb posemb_new a C s0 n_new rest
              HC Ha Hba Hs Hwf Hnew Ht Hk Hbk)
    as [z [_ [Hzs [Hzwf [Hlen Hrun]]]]].
  cbv zeta in Hrun, Hlen. fold g in Hrun, Hzs. rewrite Hrun.
  eexists. split; [reflexivity|]. split; [|split].
  - cbn [shape]. now rewrite Nat.mul_1_l.
  - unfold tensor_wf in *. rewrite Hzs in Hzwf.
    cbn [shape data fold_right] in *. rewrite length_app, Hlen, Hzwf. nia.
  - intros j Hj.
    rewrite <- (tiled_prefix_token (Z.to_nat (token_len cfg)) (a * a) C j
                  posemb Hs Hwf Hj).
    unfold token. cbn [data]. apply token_app_l. rewrite Hlen. nia.
Qed.

(** X11: under the same conditions the resampled embedding, whose contents
    fill its shape, never has more tokens than the expected one, and it has
    exactly as many if and only if the expected token count less
    [token_len] is a perfect square; otherwise the code returns a shorter
    embedding without raising. *)
Theorem resize_posemb_token_count cfg posemb posemb_new a C s0 n_new rest :
  0 < C -> 0 < a ->
  (Z.of_nat (a * a) < 2 ^ 52)%Z ->
  shape posemb = [1; S (a * a); C] ->
  tensor_wf posemb ->
  shape posemb_new = s0 :: n_new :: rest ->
  (0 < token_len cfg)%Z ->
  (1 <= Z.of_nat n_new - token_len cfg)%Z ->
  (Z.of_nat n_new - token_len cfg < 2 ^ 52)%Z ->
  exists out n_out,
    resize_posemb zoom sqrt_excess cfg posemb posemb_new = Ok out /\
    shape out = [1; n_out; C] /\
    tensor_wf out /\
    n_out <= n_new /\
    (n_out = n_new <->
     exists b, (Z.of_nat n_new - token_len cfg)%Z = Z.of_nat (b * b)).
Proof.
  intros HC Ha Hba Hs Hwf Hnew Ht Hk Hbk.
  destruct (resize_posemb_square cfg posemb posemb_new a C s0 n_new rest
              HC Ha Hba Hs Hwf Hnew Ht Hk Hbk)
    as [z [_ [Hzs [Hzwf [Hlen Hrun]]]]].
  cbv zeta in Hrun, Hlen, Hzs. rewrite Hrun. clear Hrun.
  set (k := (Z.of_nat n_new - token_len cfg)%Z) in *.
  set (g := Z.to_nat (Z.sqrt k)) in *.
  eexists. eexists. split; [reflexivity|]. split; [reflexivity|].
  pose proof (Z.sqrt_spec k ltac:(lia)) as Hspec. cbv zeta in Hspec.
  pose proof (Z.sqrt_nonneg k) as Hnn.
  assert (Hgg : Z.of_nat (g * g) = (Z.sqrt k * Z.sqrt k)%Z).
  { unfold g. rewrite Nat2Z.inj_mul, Z2Nat.id by lia. reflexivity. }
  split; [|split; [|split]].
  - unfold tensor_wf in *. rewrite Hzs in Hzwf.
    cbn [shape data fold_right] in *. rewrite length_app, Hlen, Hzwf. nia.
  - unfold k in *. lia.
  - intros E. exists g. unfold k in *. lia.
  - intros [b Hb].
    assert (Z.sqrt k = Z.of_nat b).
    { rewrite Hb, Nat2Z.inj_mul. apply Z.sqrt_square. lia. }
    unfold k in *. nia.
Qed.

(** X12: a restored embedding whose grid segment is not a perfect square of
    tokens is never resampled: with a positive [token_len] and at least one
    expected grid token the resampler raises, either when the grid is
    reshaped or when the prefix and the zoomed grid are concatenated. *)
Theorem resize_posemb_rejects_nonsquare_grid cfg posemb posemb_new m C
    s0 n_new rest :
  0 < C ->
  Nat.sqrt m * Nat.sqrt m <> m ->
  shape posemb = [1; S m; C] ->
  shape posemb_new = s0 :: n_new :: rest ->
  (0 < token_len cfg)%Z ->
  (1 <= Z.of_nat n_new - token_len cfg)%Z ->
  resize_posemb zoom sqrt_excess cfg posemb posemb_new = Err ShapeError.
Proof.
  intros HC Hm Hs Hnew Ht Hk.
  destruct (int_sqrt_any _ Hk) as [g [Hsqrt Hg]].
  assert (Hm1 : 0 < m).
  { destruct m; [|lia]. exfalso. apply Hm. reflexivity. }
  destruct (int_sqrt_any (Z.of_nat m) ltac:(lia)) as [gs [Hold Hgs]].
  assert (Hns : gs * gs <> m).
  { intros E. apply Hm. subst m. now rewrite Nat.sqrt_square. }
  unfold resize_posemb. rewrite Hnew.
  rewrite (split_tokens_positive _ (S m) C posemb Hs) by lia.
  cbn [bind fst snd].
  assert (Hgt : (token_len cfg >? 0)%Z = true) by (apply Z.gtb_lt; lia).
  rewrite Hgt, Hsqrt.
  set (grid := row0_from 1 (S m) C posemb).
  assert (Hgrid : shape grid = [m; C]).
  { unfold grid, row0_from. cbn [shape].
    now rewrite Nat.sub_succ, Nat.sub_0_r. }
  clearbody grid. rewrite Hgrid. cbn [hd]. rewrite Hold. cbn [bind].
  unfold reshape_infer at 1. unfold size. rewrite Hgrid.
  cbn [fold_right].
  destruct (Nat.eqb_spec (gs * (gs * 1)) 0) as [E0 | E0];
    [reflexivity|].
  destruct (Nat.eqb_spec ((m * (C * 1)) mod (gs * (gs * 1))) 0)
    as [Emod | Emod]; [|reflexivity].
  cbn [orb negb bind app].
  apply Nat.Div0.div_exact in Emod.
  set (q := m * (C * 1) / (gs * (gs * 1))) in *.
  assert (Hq : 0 < q) by nia.
  destruct (zoom_shape (mkTensor [gs; gs; q] (data grid))
              g gs q eq_refl Hg Hgs Hq) as [z [Hz Hzs]].
  rewrite Hz. cbn [bind].
  rewrite (reshape_infer_fits z [1; g * g] q);
    [|unfold size; rewrite Hzs; cbn [fold_right]; nia
     |cbn [fold_right]; nia].
  cbn [bind]. unfold concatenate_tokens, tile_tokens. cbn [shape app].
  destruct (Nat.eqb_spec C q) as [E | E]; [|reflexivity].
  exfalso. apply Hns. subst q. nia.
Qed.

(** X13: with [token_len <= 0] there is no prefix: the whole restored
    embedding, token 0 included, is the grid that is zoomed, and for token
    counts below 2^52 the resampled embedding is the zoomed grid, of
    [g * g] tokens, whose contents fill its shape. *)
Theorem resize_posemb_without_tokens cfg posemb posemb_new a C
    s0 n_new rest :
  0 < C -> 0 < a ->
  (Z.of_nat (a * a) < 2 ^ 52)%Z ->
  shape posemb = [1; a * a; C] ->
  tensor_wf posemb ->
  shape posemb_new = s0 :: n_new :: rest ->
  (token_len cfg <= 0)%Z ->
  1 <= n_new ->
  (Z.of_nat n_new < 2 ^ 52)%Z ->
  let g := Z.to_nat (Z.sqrt (Z.of_nat n_new)) in
  exists z,
    zoom (mkTensor [a; a; C] (data posemb)) g a = Ok z /\
    shape z = [g; g; C] /\
    resize_posemb zoom sqrt_excess cfg posemb posemb_new
    = Ok (mkTensor [1; g * g; C] (data z)) /\
    tensor_wf (mkTensor [1; g * g; C] (data z)).
Proof.
  intros HC Ha Hba Hs Hwf Hnew Ht Hn Hbn g.
  destruct (int_sqrt_pos (Z.of_nat n_new) ltac:(lia) Hbn) as [Hsqrt Hg].
  fold g in Hsqrt, Hg.
  destruct (zoom_shape (mkTensor [a; a; C] (data posemb)) g a C
              eq_refl Hg Ha HC) as [z [Hz Hzs]].
  assert (Hgwf : tensor_wf (mkTensor [a; a; C] (data posemb))).
  { unfold tensor_wf in *. rewrite Hs in Hwf.
    cbn [shape data fold_right] in *. rewrite Hwf. nia. }
  pose proof (zoom_wf _ _ _ _ Hgwf Hz) as Hzwf.
  exists z. split; [exact Hz|]. split; [exact Hzs|]. split.
  - unfold resize_posemb, split_tokens. rewrite Hnew, Hs.
    assert (Hgt : (token_len cfg >? 0)%Z = false).
    { destruct (token_len cfg >? 0)%Z eqn:E; auto.
      apply Z.gtb_lt in E. lia. }
    rewrite Hgt. cbn [bind fst snd]. rewrite Hsqrt.
    set (grid := row0_from 0 (a * a) C posemb).
    assert (Hgrid : shape grid = [a * a; C]).
    { unfold grid, row0_from. cbn [shape]. now rewrite Nat.sub_0_r. }
    assert (Hdata : data grid = data posemb) by reflexivity.
    clearbody grid. rewrite Hgrid. cbn [hd].
    rewrite (int_sqrt_square a Hba). cbn [bind].
    rewrite (reshape_infer_fits grid [a; a] C);
      [|unfold size; rewrite Hgrid; cbn [fold_right]; nia
       |cbn [fold_right]; nia].
    cbn [bind app]. rewrite Hdata, Hz. cbn [bind].
    rewrite (reshape_infer_fits z [1; g * g] C);
      [|unfold size; rewrite Hzs; cbn [fold_right]; nia
       |cbn [fold_right]; nia].
    cbn [bind]. unfold concatenate_tokens, slice_tokens.
    cbn [shape app data Nat.min Nat.mul firstn Nat.add].
    now rewrite Nat.eqb_refl.
  - unfold tensor_wf in *. rewrite Hzs in Hzwf.
    cbn [shape data fold_right] in *. rewrite Hzwf. nia.
Qed.

End ResizeFacts.

(** ** The order of the rebuilt tree, and when loading succeeds *)

Section MoreLoadFacts.

Context {elem : Type}.

Variable zoom : tensor elem -> nat -> nat -> result (tensor elem).
Variable sqrt_excess : Z -> nat.

Implicit Types (t restored loaded init_params : dict (tree elem)).

(** X14: on a tree of distinct, non-empty, separator-free keys,
    [recover_tree] applied to the flat dict returns the tree with, in every
    dict, the tensors and empty dicts first and the sub-dicts after them,
    each group in its original order. *)
Theorem unflatten_flatten_order (d : dict (tree elem)) :
  unique_keys (Dict d) = true ->
  sep_free (Dict d) = true ->
  keys_nonempty (Dict d) = true ->
  unflatten (_flatten_dict d "" "/") = Some (leafish d ++ subdicts d).
Proof.
  intros Hun Hsep Hne.
  rewrite flatten_dict_rel by auto using keys_nonempty_named.
  now rewrite (unflatten_rel (Dict d) Hsep Hun).
Qed.

(** The configuration has an entry for the prompt pool. *)
Definition has_pool_config (cfg : model_config) : bool :=
  match prompt_params cfg with
  | Some pp => dict_mem pp "prompt_pool"
  | None => false
  end.

(** X15: when the model expects a [prompt_pool] group that the reconciled
    checkpoint lacks, and the configuration has no [prompt_params] entry for
    the prompt pool, [load_pretrained] raises: the group cannot be created
    without that entry, even though its [prompt_key] flag could only ask for
    more. *)
Theorem load_pretrained_needs_pool_config loaded init_params cfg restored :
  inspect_params loaded init_params false false = Ok restored ->
  dict_mem init_params "prompt_pool" = true ->
  dict_mem restored "prompt_pool" = false ->
  has_pool_config cfg = false ->
  exists e, load_pretrained zoom sqrt_excess loaded init_params cfg = Err e.
Proof.
  intros Hi Hinit Hres Hcfg.
  destruct (load_pretrained zoom sqrt_excess loaded init_params cfg)
    as [r|e] eqn:H;
    [exfalso | eauto].
  unfold load_pretrained in H. rewrite Hi in H. cbn [bind] in H.
  apply adapt_Ok in H. destruct H as [t1 [t2 [H1 [H2 _]]]].
  apply add_prompt_groups_Ok in H2. destruct H2 as [ta [tb [Ha [Hb Hc]]]].
  assert (E : dict_get tb "prompt_pool" = dict_get restored "prompt_pool").
  { rewrite (add_prompt_group_other _ _ _ _ _ _ Hb) by discriminate.
    rewrite (add_prompt_group_other _ _ _ _ _ _ Ha) by discriminate.
    rewrite (overwrite_head_other _ _ _ _ H1) by discriminate.
    apply drop_pre_logits_other. discriminate. }
  unfold add_prompt_group in Hc.
  rewrite Hinit, (dict_mem_get _ _ _ _ E), Hres in Hc. cbn [andb negb] in Hc.
  apply bind_Ok in Hc. destruct Hc as [tc [_ Hc]].
  cbn [String.eqb Ascii.eqb Bool.eqb] in Hc.
  unfold has_pool_config, dict_mem in Hcfg.
  destruct (prompt_params cfg) as [pp|]; [|discriminate].
  destruct (dict_get pp "prompt_pool"); discriminate.
Qed.

Lemma add_prompt_group_nothing_to_add init_params cfg t key :
  (dict_mem init_params key = true -> dict_mem t key = true) ->
  add_prompt_group init_params cfg t key = Ok t.
Proof.
  intros H. unfold add_prompt_group.
  destruct (dict_mem init_params key); auto.
  now rewrite H.
Qed.

(** X16: a checkpoint loads whenever its reconciled tree has a [head] dict,
    has every prompt group that the model expects, and has either no
    positional embedding under [Transformer] or one of the expected shape,
    provided [init_params] has [head/kernel] and [head/bias]; the returned
    tree is the reconciled one without [pre_logits] (when the configuration
    has no [representation_size]) and with the two head entries replaced. *)
Theorem load_pretrained_succeeds loaded init_params cfg restored h
    kernel bias :
  inspect_params loaded init_params false false = Ok restored ->
  dict_get restored "head" = Some (Dict h) ->
  getitem2 init_params "head" "kernel" = Ok kernel ->
  getitem2 init_params "head" "bias" = Ok bias ->
  (forall key,
      In key ["shared_prompt"; "task_specific_prompt"; "prompt_pool"] ->
      dict_mem init_params key = true -> dict_mem restored key = true) ->
  (match dict_get restored "Transformer" with
   | Some v => contains v "posembed_input"
   | None => false
   end = false \/
   exists p q,
     pos_embedding restored = Ok (Leaf p) /\
     pos_embedding init_params = Ok (Leaf q) /\
     shape p = shape q) ->
  load_pretrained zoom sqrt_excess loaded init_params cfg =
  Ok (dict_set (drop_pre_logits cfg restored) "head"
        (Dict (dict_set (dict_set h "kernel" kernel) "bias" bias))).
Proof.
  intros Hi Hh Hk Hb Hprompts Hpos.
  unfold load_pretrained. rewrite Hi. cbn [bind]. unfold adapt.
  set (t0 := drop_pre_logits cfg restored).
  set (t1 := dict_set t0 "head"
               (Dict (dict_set (dict_set h "kernel" kernel) "bias" bias))).
  assert (H1 : overwrite_head init_params t0 = Ok t1).
  { apply overwrite_head_Ok. exists kernel, bias, h. repeat split; auto.
    unfold t0. now rewrite drop_pre_logits_other by discriminate. }
  rewrite H1. cbn [bind].
  assert (Hsame : forall k, k <> "head" -> k <> "pre_logits" ->
                            dict_get t1 k = dict_get restored k).
  { intros k Hk1 Hk2. unfold t1, t0.
    rewrite dict_get_set_ne by congruence.
    now apply drop_pre_logits_other. }
  assert (H2 : add_prompt_groups init_params cfg t1 = Ok t1).
  { assert (Hstep : forall key,
               In key ["shared_prompt"; "task_specific_prompt";
                       "prompt_pool"] ->
               add_prompt_group init_params cfg t1 key = Ok t1).
    { intros key Hkey. apply add_prompt_group_nothing_to_add. intros Hin.
      rewrite (dict_mem_get t1 restored key key).
      - now apply Hprompts.
      - apply Hsame; destruct Hkey as [<- | [<- | [<- | []]]]; discriminate. }
    unfold add_prompt_groups. cbn [fold_left bind].
    rewrite Hstep by (simpl; auto). cbn [bind].
    rewrite Hstep by (simpl; auto). cbn [bind].
    apply Hstep. simpl. auto. }
  rewrite H2. cbn [bind].
  assert (Htr : dict_get t1 "Transformer" = dict_get restored "Transformer")
    by (apply Hsame; discriminate).
  destruct Hpos as [Hnone | [p [q [Hp [Hq Hs]]]]].
  - unfold rescale_posembed. rewrite Htr.
    destruct (dict_get restored "Transformer");
      [now rewrite Hnone | reflexivity].
  - apply (rescale_posembed_same_shape zoom sqrt_excess init_params cfg
             t1 p q); auto.
    rewrite <- Hp. now apply pos_embedding_ext.
Qed.

End MoreLoadFacts.

(** ** Concrete runs of the further properties *)

Local Open Scope Z_scope.

Lemma flatten_keys_extend_parent_run :
  "enc" <> "" /\
  In ("enc/norm", Dict [])
    (_flatten_dict (elem := Z) [("norm", Dict [])] "enc" "/") /\
  ("enc/norm" = "enc" \/ exists rest, "enc/norm" = ("enc" ++ "/" ++ rest)%string).
Proof.
  assert (Hp : "enc" <> "") by discriminate.
  assert (Hin : In ("enc/norm", Dict [])
                  (_flatten_dict (elem := Z) [("norm", Dict [])] "enc" "/"))
    by (left; reflexivity).
  exact (conj Hp (conj Hin
           (flatten_keys_extend_parent _ "enc" "/" "enc/norm" _ Hp Hin))).
Defined.

(** A checkpoint whose block [mlp] has a weight, for a model whose [mlp]
    has none. *)
Definition params_mlp : dict (tree Z) :=
  [("mlp", Dict [("w", Leaf (mkTensor [1]%nat [7]))]);
   ("cls", Leaf (mkTensor [1]%nat [8]))].

Definition expected_mlp : dict (tree Z) :=
  [("mlp", Dict []); ("cls", Leaf (mkTensor [1]%nat [0]))].

Lemma inspect_params_changes_run :
  inspect_params params_mlp expected_mlp false false
    = Ok [("mlp", Dict []); ("cls", Leaf (mkTensor [1]%nat [8]))] /\
  dict_get (_flatten_dict expected_mlp "" "/") "mlp" = Some (Dict []) /\
  ~ In "mlp" (keys (_flatten_dict params_mlp "" "/")) /\
  dict_get [("mlp", Dict []); ("cls", Leaf (mkTensor [1]%nat [8]))] "mlp"
    = Some (Dict []) /\
  (forall k,
      dict_get (_flatten_dict expected_mlp "" "/") k <> Some (Dict []) \/
      In k (keys (_flatten_dict params_mlp "" "/")) ->
      dict_get [("mlp", Dict []); ("cls", Leaf (mkTensor [1]%nat [8]))] k
      = dict_get params_mlp k) /\
  (forall k x, dict_get params_mlp k = Some (Leaf x) ->
               dict_get [("mlp", Dict []); ("cls", Leaf (mkTensor [1]%nat [8]))]
                 k = Some (Leaf x)).
Proof.
  assert (Hout : ~ In "mlp" (keys (_flatten_dict params_mlp "" "/"))).
  { intros [H | [H | []]]; discriminate. }
  destruct (inspect_params_changes_only_empty_keys params_mlp expected_mlp
              false false _ eq_refl) as [Hnew [Hold Hleaf]].
  exact (conj eq_refl (conj eq_refl (conj Hout
           (conj (Hnew "mlp" eq_refl Hout) (conj Hold Hleaf))))).
Defined.

Lemma inspect_params_drops_run :
  dict_get expected_mlp "mlp" = Some (Dict []) /\
  dict_get params_mlp "mlp" = Some (Dict [("w", Leaf (mkTensor [1]%nat [7]))]) /\
  exists r,
    inspect_params params_mlp expected_mlp false false = Ok r /\
    dict_get r "mlp" = Some (Dict []).
Proof.
  refine (conj eq_refl (conj eq_refl _)).
  exact (inspect_params_drops_nonempty_subtree params_mlp expected_mlp "mlp"
           _ _ eq_refl eq_refl eq_refl eq_refl eq_refl eq_refl).
Defined.

Lemma recover_tree_flat_names_run :
  recover_tree (elem := Z) ["a"; "b"; "a"]
    [Leaf (mkTensor [1]%nat [1]); Leaf (mkTensor [1]%nat [2]);
     Leaf (mkTensor [1]%nat [3])]
  = Some [("a", Leaf (mkTensor [1]%nat [3]));
          ("b", Leaf (mkTensor [1]%nat [2]))].
Proof.
  refine (recover_tree_flat_names ["a"; "b"; "a"] _ _).
  intros k [<- | [<- | [<- | []]]]; reflexivity.
Defined.

(** A checkpoint with backbone entries next to the adapted ones. *)
Definition loaded_backbone : dict (tree Z) :=
  [("embedding", Dict [("kernel", Leaf (mkTensor [1]%nat [51]))]);
   ("head", Dict [("kernel", Leaf (mkTensor [2]%nat [31; 32]));
                  ("bias", Leaf (mkTensor [1]%nat [33]))]);
   ("pre_logits", Dict [("kernel", Leaf (mkTensor [1]%nat [41]))])].

Definition init_backbone : dict (tree Z) :=
  [("embedding", Dict [("kernel", Leaf (mkTensor [1]%nat [0]))]);
   ("head", Dict [("kernel", Leaf (mkTensor [2]%nat [1; 2]));
                  ("bias", Leaf (mkTensor [1]%nat [3]))])].

Definition result_backbone : dict (tree Z) :=
  [("embedding", Dict [("kernel", Leaf (mkTensor [1]%nat [51]))]);
   ("head", Dict [("kernel", Leaf (mkTensor [2]%nat [1; 2]));
                  ("bias", Leaf (mkTensor [1]%nat [3]))])].

Lemma load_pretrained_keeps_run :
  inspect_params loaded_backbone init_backbone false false
    = Ok loaded_backbone /\
  load_pretrained zoom_nearest sqrt_exact loaded_backbone init_backbone cfg_cls
    = Ok result_backbone /\
  dict_get result_backbone "embedding" = dict_get loaded_backbone "embedding".
Proof.
  refine (conj eq_refl (conj eq_refl _)).
  refine (load_pretrained_keeps_other_entries zoom_nearest sqrt_exact
            loaded_backbone
            init_backbone cfg_cls loaded_backbone result_backbone "embedding"
            eq_refl eq_refl _).
  simpl. intros [H | [H | [H | [H | [H | [H | []]]]]]]; discriminate H.
Defined.

Lemma load_pretrained_drops_run :
  NoDup (keys loaded_backbone) /\
  load_pretrained zoom_nearest sqrt_exact loaded_backbone init_backbone cfg_cls
    = Ok result_backbone /\
  dict_get result_backbone "pre_logits" = None.
Proof.
  assert (Hnd : NoDup (keys loaded_backbone)).
  { apply distinct_NoDup. reflexivity. }
  refine (conj Hnd (conj eq_refl _)).
  exact (load_pretrained_drops_pre_logits zoom_nearest sqrt_exact
           loaded_backbone
           init_backbone cfg_cls loaded_backbone result_backbone
           Hnd eq_refl eq_refl).
Defined.

(** A restored tree with a 2 by 2 grid and a model with a 3 by 3 grid. *)
Definition tree_grid2 : dict (tree Z) :=
  [("Transformer",
    Dict [("encoder_norm", Dict [("scale", Leaf (mkTensor [1]%nat [9]))]);
          ("posembed_input", Dict [("pos_embedding", Leaf posemb5)])])].

Definition posemb10 : tensor Z := mkTensor [1; 10; 1]%nat (repeat 0 10).

Definition init_grid3 : dict (tree Z) :=
  [("Transformer",
    Dict [("encoder_norm", Dict [("scale", Leaf (mkTensor [1]%nat [1]))]);
          ("posembed_input", Dict [("pos_embedding", Leaf posemb10)])])].

Definition tree_grid3 : dict (tree Z) :=
  [("Transformer",
    Dict [("encoder_norm", Dict [("scale", Leaf (mkTensor [1]%nat [9]))]);
          ("posembed_input",
           Dict [("pos_embedding",
                  Leaf (mkTensor [1; 10; 1]%nat
                          [10; 11; 11; 12; 11; 11; 12; 13; 13; 14]))])])].

Lemma rescale_posembed_run :
  rescale_posembed zoom_nearest sqrt_exact init_grid3 cfg_cls tree_grid2
  = Ok tree_grid3 /\
  exists out,
    resize_posemb zoom_nearest sqrt_exact cfg_cls posemb5 posemb10 = Ok out /\
    pos_embedding tree_grid3 = Ok (Leaf out) /\
    (forall k, k <> "posembed_input" ->
               getitem2 tree_grid3 "Transformer" k
               = getitem2 tree_grid2 "Transformer" k) /\
    (forall tr tr' k,
        k <> "pos_embedding" ->
        dict_get tree_grid2 "Transformer" = Some (Dict tr) ->
        dict_get tree_grid3 "Transformer" = Some (Dict tr') ->
        getitem2 tr' "posembed_input" k = getitem2 tr "posembed_input" k).
Proof.
  refine (conj eq_refl _).
  refine (rescale_posembed_replaces_one_leaf zoom_nearest sqrt_exact
            init_grid3 cfg_cls
            tree_grid2 tree_grid3 posemb5 posemb10 eq_refl eq_refl _ eq_refl).
  discriminate.
Defined.

Lemma resize_posemb_shape_law_run :
  (Z.of_nat (2 * 2) < 2 ^ 52) /\
  (Z.of_nat 10 - token_len cfg_cls < 2 ^ 52) /\
  exists out,
    resize_posemb zoom_nearest sqrt_exact cfg_cls posemb5 posemb10 = Ok out /\
    shape out = [1; Z.to_nat 1 + 3 * 3; 1]%nat /\
    tensor_wf out /\
    (forall j, (j < Z.to_nat 1)%nat -> token 1 j out = token 1 0 posemb5).
Proof.
  refine (conj eq_refl (conj eq_refl _)).
  refine (resize_posemb_shape_law zoom_nearest sqrt_exact zoom_nearest_shape
            zoom_nearest_wf cfg_cls posemb5 posemb10 2 1 1 10 [1%nat]
            Nat.lt_0_1 Nat.lt_0_2 eq_refl eq_refl eq_refl eq_refl eq_refl _
            eq_refl).
  discriminate.
Defined.

(** Twelve expected tokens: eleven grid tokens are not a square. *)
Definition posemb12 : tensor Z := mkTensor [1; 12; 1]%nat (repeat 0 12).

Lemma resize_posemb_token_count_run :
  (Z.of_nat (2 * 2) < 2 ^ 52) /\
  (Z.of_nat 12 - token_len cfg_cls < 2 ^ 52) /\
  exists out n_out,
    resize_posemb zoom_nearest sqrt_exact cfg_cls posemb5 posemb12 = Ok out /\
    shape out = [1; n_out; 1]%nat /\
    tensor_wf out /\
    (n_out <= 12)%nat /\
    (n_out = 12%nat <->
     exists b, Z.of_nat 12 - token_len cfg_cls = Z.of_nat (b * b)).
Proof.
  refine (conj eq_refl (conj eq_refl _)).
  refine (resize_posemb_token_count zoom_nearest sqrt_exact
            zoom_nearest_shape zoom_nearest_wf cfg_cls
            posemb5 posemb12 2 1 1 12 [1%nat] Nat.lt_0_1 Nat.lt_0_2
            eq_refl eq_refl eq_refl eq_refl eq_refl _ eq_refl).
  discriminate.
Defined.

(** One token and three grid tokens. *)
Definition posemb4 : tensor Z := mkTensor [1; 4; 1]%nat [10; 11; 12; 13].

Lemma resize_posemb_rejects_run :
  resize_posemb zoom_nearest sqrt_exact cfg_cls posemb4 posemb10
  = Err ShapeError.
Proof.
  refine (resize_posemb_rejects_nonsquare_grid zoom_nearest sqrt_exact
            zoom_nearest_shape cfg_cls posemb4 posemb10 3 1 1 10 [1%nat]
            Nat.lt_0_1 _ eq_refl eq_refl eq_refl _); discriminate.
Defined.

(** Four tokens and no special token. *)
Definition posemb2x2 : tensor Z := mkTensor [1; 4; 1]%nat [11; 12; 13; 14].

Definition posemb9 : tensor Z := mkTensor [1; 9; 1]%nat (repeat 0 9).

Lemma resize_posemb_without_tokens_run :
  (Z.of_nat (2 * 2) < 2 ^ 52) /\
  (Z.of_nat 9 < 2 ^ 52) /\
  exists z,
    zoom_nearest (mkTensor [2; 2; 1]%nat (data posemb2x2)) 3 2 = Ok z /\
    shape z = [3; 3; 1]%nat /\
    resize_posemb zoom_nearest sqrt_exact (mkConfig None None None)
      posemb2x2 posemb9
    = Ok (mkTensor [1; 3 * 3; 1]%nat (data z)) /\
    tensor_wf (mkTensor [1; 3 * 3; 1]%nat (data z)).
Proof.
  refine (conj eq_refl (conj eq_refl _)).
  refine (resize_posemb_without_tokens zoom_nearest sqrt_exact
            zoom_nearest_shape zoom_nearest_wf
            (mkConfig None None None) posemb2x2 posemb9 2 1 1 9 [1%nat]
            Nat.lt_0_1 Nat.lt_0_2 eq_refl eq_refl eq_refl eq_refl _ _
            eq_refl).
  - discriminate.
  - apply Nat.lt_0_succ.
Defined.

Lemma unflatten_flatten_order_run :
  unflatten (_flatten_dict nested_tree "" "/")
  = Some [("b", Leaf (mkTensor [1]%nat [5]));
          ("a", Dict [("x", Leaf (mkTensor [1]%nat [7]));
                      ("norm", Dict []);
                      ("y", Dict [("z", Leaf (mkTensor [2]%nat [8; 9]))])])].
Proof.
  exact (unflatten_flatten_order nested_tree eq_refl eq_refl eq_refl).
Defined.

Lemma load_pretrained_needs_pool_config_run :
  exists e,
    load_pretrained zoom_nearest sqrt_exact loaded_small init_small cfg_cls
    = Err e.
Proof.
  exact (load_pretrained_needs_pool_config zoom_nearest sqrt_exact loaded_small
           init_small cfg_cls loaded_small eq_refl eq_refl eq_refl eq_refl).
Defined.

Lemma load_pretrained_succeeds_run :
  load_pretrained zoom_nearest sqrt_exact loaded_backbone init_backbone cfg_cls
  = Ok result_backbone.
Proof.
  refine (load_pretrained_succeeds zoom_nearest sqrt_exact loaded_backbone
            init_backbone
            cfg_cls loaded_backbone _ _ _ eq_refl eq_refl eq_refl eq_refl
            _ (or_introl eq_refl)).
  intros key [<- | [<- | [<- | []]]]; discriminate.
Defined.
